(** * Profile connection scan (gtfspy/routing/connection_scan_profile.py)

    A shallow embedding of [ConnectionScanProfiler] and the properties of
    its backward sweep.

    Python objects are mutated in place; here the instance [self] is a
    record that every method threads through a small state-and-exception
    monad.  Dictionaries are [gmap]s, the two [defaultdict]s store their
    default on the first read of a missing key, as Python does. *)

From stdpp Require Import gmap list numbers.
From Stdlib Require Import QArith Qcanon SpecFloat.

Local Open Scope Qc_scope.

(** ** Numbers

    Times, margins, distances and the walking speed are Python numbers:
    [int]s, and [float]s for the walking speed and whatever is computed
    from it.  A number is embedded as its value, a rational in [Qc]: every
    [int] and every finite [float] has one.  Addition of the integer times
    and comparisons are exact in Python and are those of [Qc];
    [float("inf")] is the extra value [Inf].  The arithmetic on [float]s
    rounds, and is embedded as it rounds: see the doubles below. *)

Inductive num : Type :=
  | Fin (q : Qc)
  | Inf.

(** [a < b] on Python numbers. *)
Definition num_lt (a b : num) : bool :=
  match a, b with
  | Fin x, Fin y => bool_decide (x < y)
  | Fin _, Inf => true
  | Inf, _ => false
  end.

(** [a <= b] on Python numbers. *)
Definition num_le (a b : num) : bool :=
  match a, b with
  | Fin x, Fin y => bool_decide (x <= y)
  | _, Inf => true
  | Inf, Fin _ => false
  end.

(** The builtin [min(a, b)]: the first argument, unless the second is
    strictly smaller. *)
Definition py_min (a b : num) : num :=
  if num_lt b a then b else a.


(** ** Doubles

    A Python [float] is an IEEE 754 binary64 number.  Its operations are
    those of the Standard Library's [SpecFloat] at precision 53 and
    exponent bound 1024, which round to nearest, ties to even, as the
    hardware does. *)

Definition prec : Z := 53.
Definition emax : Z := 1024.

(** The double that an operand of a [float] operation is taken as.  An
    [int] is converted to the nearest double (exactly, up to 2^53); the
    value of a [float] is already a double and is taken as it is.  A value
    that is neither, which no Python number has, stands for the quotient
    of its numerator and denominator, as the literal [1.4] does for
    14/10. *)
Definition double_of (q : Qc) : spec_float :=
  let n := Qnum (this q) in
  let d := Zpos (Qden (this q)) in
  let k := Z.log2 d in
  if (2 ^ k =? d)%Z
  then binary_normalize prec emax n (- k) false
  else SFdiv prec emax (binary_normalize prec emax n 0 false)
                       (binary_normalize prec emax d 0 false).

(** The value of a finite double.  An infinite or undefined result has no
    value here (it is given 0): the sweep is modelled on inputs whose walking
    times stay within the doubles, see [walk_in_range]. *)
Definition value_of (f : spec_float) : Qc :=
  match f with
  | S754_finite s m e =>
      let n := cond_Zopp s (Zpos m) in
      if (0 <=? e)%Z then Q2Qc (inject_Z (n * 2 ^ e))
      else Q2Qc (n # Z.to_pos (2 ^ (- e)))
  | _ => 0
  end.

Definition is_finite (f : spec_float) : bool :=
  match f with
  | S754_zero _ | S754_finite _ _ _ => true
  | _ => false
  end.

(** [a / b] on doubles, for [b] other than zero. *)
Definition float_truediv (a b : Qc) : spec_float :=
  SFdiv prec emax (double_of a) (double_of b).

(** [a - f] for a number [a] and a [float] [f]: the result is a [float]. *)
Definition float_sub (a : Qc) (f : spec_float) : Qc :=
  value_of (SFsub prec emax (double_of a) f).

(** The operands of [dep - d / walk_speed] and its two results are finite
    doubles.  Outside of this Python raises [OverflowError] for an [int]
    beyond the doubles, or goes on with an infinite departure time; neither
    is part of this model. *)
Definition walk_in_range (dep d walk_speed : Qc) : bool :=
  is_finite (double_of dep) && is_finite (double_of d)
  && is_finite (double_of walk_speed)
  && is_finite (float_truediv d walk_speed)
  && is_finite (SFsub prec emax (double_of dep) (float_truediv d walk_speed)).

(** ** The data model (gtfspy.routing.models) *)

Definition stop := Z.
Definition trip := Z.

(** Modelled from the spec: the named tuple [Connection] of
    gtfspy/routing/models.py, with the five fields that [_run] reads. *)
Record Connection : Type := {
  departure_stop : stop;
  arrival_stop : stop;
  departure_time : Qc;
  arrival_time : Qc;
  trip_id : trip
}.

(** Modelled from the spec: the named tuple [ParetoTuple] of
    gtfspy/routing/models.py, built in the source from a departure time and
    a finite [arrival_time_target].  Its field [departure_time] is
    [pt_departure_time] here, the name being taken by [Connection]. *)
Record ParetoTuple : Type := {
  pt_departure_time : Qc;
  arrival_time_target : Qc
}.

(** ** Node profiles (gtfspy.routing.node_profile) *)

(** Modelled from the spec: the two frontier variants of
    gtfspy/routing/node_profile.py; [NodeProfile] holds its Pareto tuples,
    [IdentityNodeProfile] is the sentinel installed at the target. *)
Inductive profile : Type :=
  | NodeProfile (tuples : list ParetoTuple)
  | IdentityNodeProfile.

(** Modelled from the spec: the dominance relation of section 3, "X
    dominates Y iff X.departure >= Y.departure and X.arrival <= Y.arrival,
    with at least one strict". *)
Definition dominates (x y : ParetoTuple) : bool :=
  bool_decide (pt_departure_time y <= pt_departure_time x)
  && bool_decide (arrival_time_target x <= arrival_time_target y)
  && (bool_decide (pt_departure_time y < pt_departure_time x)
      || bool_decide (arrival_time_target x < arrival_time_target y)).

Definition same_tuple (x y : ParetoTuple) : bool :=
  bool_decide (pt_departure_time x = pt_departure_time y)
  && bool_decide (arrival_time_target x = arrival_time_target y).

(** Modelled from the spec: [NodeProfile.get_earliest_arrival_time_at_target]
    and its override in [IdentityNodeProfile] (section 4.1): the smallest
    arrival time among the tuples departing at or after [t], the
    unreachable value if there is none; the sentinel answers [t]. *)
Definition get_earliest_arrival_time_at_target (p : profile) (t : Qc) : num :=
  match p with
  | IdentityNodeProfile => Fin t
  | NodeProfile tuples =>
      foldr (λ x best,
               if bool_decide (t <= pt_departure_time x)
               then py_min best (Fin (arrival_time_target x))
               else best)
            Inf tuples
  end.

(** Modelled from the spec: [NodeProfile.update_pareto_optimal_tuples] and
    its override in [IdentityNodeProfile] (section 4.1): the candidate enters
    iff no stored tuple dominates or equals it, and then evicts the tuples
    it dominates; the result tells whether the frontier changed.  The
    sentinel never changes. *)
Definition update_pareto_optimal_tuples (p : profile) (new : ParetoTuple)
  : profile * bool :=
  match p with
  | IdentityNodeProfile => (IdentityNodeProfile, false)
  | NodeProfile tuples =>
      if existsb (λ x, dominates x new || same_tuple x new) tuples
      then (NodeProfile tuples, false)
      else (NodeProfile (new :: List.filter (λ x, negb (dominates new x)) tuples),
            true)
  end.

(** ** The walk network

    Modelled from the spec: the [networkx.Graph] handed to the constructor,
    seen through the only call the source makes,
    [edges_iter(nbunch=[s], data="distance_shape")]: the edges at [s] in the
    graph's iteration order, each as the neighbour and the distance. *)
Record Graph : Type := {
  edges_iter : stop → list (stop * Qc)
}.

(** ** The instance *)

(** What the sweep does to its two dictionaries and to the profiles, in
    order.  The trace is ghost state: the source has no such log. *)
Inductive event : Type :=
  | Query (s : stop) (t : Qc)
  | TripRead (i : trip)
  | TripWrite (i : trip) (v : num)
  | Merge (s : stop) (pt : ParetoTuple).

Record ConnectionScanProfiler : Type := {
  _has_run : bool;
  _target : stop;
  _connections : list Connection;
  _start_time : Qc;
  _end_time : Qc;
  _transfer_margin : Qc;
  _walk_network : Graph;
  _walk_speed : Qc;
  __trip_min_arrival_time : gmap trip num;
  _stop_profiles : gmap stop profile;
  trace : list event
}.

Definition set_has_run (b : bool) (self : ConnectionScanProfiler) :=
  {| _has_run := b;
     _target := _target self;
     _connections := _connections self;
     _start_time := _start_time self;
     _end_time := _end_time self;
     _transfer_margin := _transfer_margin self;
     _walk_network := _walk_network self;
     _walk_speed := _walk_speed self;
     __trip_min_arrival_time := __trip_min_arrival_time self;
     _stop_profiles := _stop_profiles self;
     trace := trace self |}.

Definition set_trip_min_arrival_time (m : gmap trip num)
    (self : ConnectionScanProfiler) :=
  {| _has_run := _has_run self;
     _target := _target self;
     _connections := _connections self;
     _start_time := _start_time self;
     _end_time := _end_time self;
     _transfer_margin := _transfer_margin self;
     _walk_network := _walk_network self;
     _walk_speed := _walk_speed self;
     __trip_min_arrival_time := m;
     _stop_profiles := _stop_profiles self;
     trace := trace self |}.

Definition set_stop_profiles (m : gmap stop profile)
    (self : ConnectionScanProfiler) :=
  {| _has_run := _has_run self;
     _target := _target self;
     _connections := _connections self;
     _start_time := _start_time self;
     _end_time := _end_time self;
     _transfer_margin := _transfer_margin self;
     _walk_network := _walk_network self;
     _walk_speed := _walk_speed self;
     __trip_min_arrival_time := __trip_min_arrival_time self;
     _stop_profiles := m;
     trace := trace self |}.

Definition log (e : event) (self : ConnectionScanProfiler) :=
  {| _has_run := _has_run self;
     _target := _target self;
     _connections := _connections self;
     _start_time := _start_time self;
     _end_time := _end_time self;
     _transfer_margin := _transfer_margin self;
     _walk_network := _walk_network self;
     _walk_speed := _walk_speed self;
     __trip_min_arrival_time := __trip_min_arrival_time self;
     _stop_profiles := _stop_profiles self;
     trace := trace self ++ [e] |}.

(** Only the window bounds replaced. *)
Definition set_window (a b : Qc) (self : ConnectionScanProfiler) :=
  {| _has_run := _has_run self;
     _target := _target self;
     _connections := _connections self;
     _start_time := a;
     _end_time := b;
     _transfer_margin := _transfer_margin self;
     _walk_network := _walk_network self;
     _walk_speed := _walk_speed self;
     __trip_min_arrival_time := __trip_min_arrival_time self;
     _stop_profiles := _stop_profiles self;
     trace := trace self |}.

(** The frontier of a location and the tracker value of a trip, as a read
    of the [defaultdict] would give them. *)
Definition profile_at (self : ConnectionScanProfiler) (s : stop) : profile :=
  default (NodeProfile []) (_stop_profiles self !! s).

Definition trip_value (self : ConnectionScanProfiler) (i : trip) : num :=
  default Inf (__trip_min_arrival_time self !! i).

(** ** Mutation and exceptions *)

Inductive exn : Type :=
  | AssertionError
  | ZeroDivisionError
  | RuntimeError.

Inductive outcome (A : Type) : Type :=
  | Ok (a : A)
  | Raised (e : exn).
Arguments Ok {A} a.
Arguments Raised {A} e.

Definition M (A : Type) : Type :=
  ConnectionScanProfiler → ConnectionScanProfiler * outcome A.

Definition ret {A} (a : A) : M A := λ self, (self, Ok a).

Definition bind {A B} (m : M A) (k : A → M B) : M B := λ self,
  match m self with
  | (self', Ok a) => k a self'
  | (self', Raised e) => (self', Raised e)
  end.

Definition raise {A} (e : exn) : M A := λ self, (self, Raised e).

Definition attr {A} (field : ConnectionScanProfiler → A) : M A :=
  λ self, (self, Ok (field self)).

Notation "x <- m ;; k" := (bind m (λ x, k))
  (at level 100, m at next level, right associativity).
Notation "m ;;; k" := (bind m (λ _, k))
  (at level 100, right associativity).

(** [assert cond]. *)
Definition py_assert (cond : bool) : M unit :=
  if cond then ret tt else raise AssertionError.

(** [a / b] for a [float] divisor, the documented type of [walk_speed]:
    the operands are taken as doubles, division by zero raises, and the
    quotient is the double nearest to the exact one. *)
Definition py_div (a b : Qc) : M spec_float :=
  if bool_decide (b = 0) then raise ZeroDivisionError
  else ret (float_truediv a b).

(** [for x in l: body], with the local variables that the body rebinds
    carried from one iteration to the next. *)
Fixpoint for_in {A L} (l : list A) (body : L → A → M L) (locals : L) : M L :=
  match l with
  | [] => ret locals
  | x :: rest => locals' <- body locals x ;; for_in rest body locals'
  end.

(** [self._stop_profiles[s]]: a missing key gets a fresh [NodeProfile()].
    Every value of the dictionary is an object of its own and no key is
    ever bound again, so the returned reference is the key. *)
Definition stop_profiles_getitem (s : stop) : M stop := λ self,
  match _stop_profiles self !! s with
  | Some _ => (self, Ok s)
  | None => (set_stop_profiles (<[s := NodeProfile []]> (_stop_profiles self)) self,
             Ok s)
  end.

(** [ref.get_earliest_arrival_time_at_target(t)]. *)
Definition call_get_earliest_arrival_time_at_target (ref : stop) (t : Qc)
  : M num := λ self,
  (log (Query ref t) self,
   Ok (get_earliest_arrival_time_at_target (profile_at self ref) t)).

(** [ref.update_pareto_optimal_tuples(pt)]: the object behind [ref] is
    changed in place. *)
Definition call_update_pareto_optimal_tuples (ref : stop) (pt : ParetoTuple)
  : M bool := λ self,
  let r := update_pareto_optimal_tuples (profile_at self ref) pt in
  (log (Merge ref pt)
     (set_stop_profiles (<[ref := r.1]> (_stop_profiles self)) self),
   Ok r.2).

(** [self.__trip_min_arrival_time[i]]: a missing key gets [float("inf")]. *)
Definition trip_min_arrival_time_getitem (i : trip) : M num := λ self,
  match __trip_min_arrival_time self !! i with
  | Some v => (log (TripRead i) self, Ok v)
  | None =>
      (log (TripRead i)
         (set_trip_min_arrival_time
            (<[i := Inf]> (__trip_min_arrival_time self)) self),
       Ok Inf)
  end.

(** [self.__trip_min_arrival_time[i] = v]. *)
Definition trip_min_arrival_time_setitem (i : trip) (v : num) : M unit :=
  λ self,
  (log (TripWrite i v)
     (set_trip_min_arrival_time (<[i := v]> (__trip_min_arrival_time self)) self),
   Ok tt).

(** ** The methods of [ConnectionScanProfiler] *)

(** Modelled from the spec: [AbstractRoutingAlgorithm.__init__] of
    gtfspy/routing/abstract_routing_algorithm.py, which creates the
    "has completed" flag, unset.  The rest is the constructor of the
    source. *)
Definition __init__ (transit_events : list Connection) (target_stop : stop)
    (start_time end_time transfer_margin : Qc) (walk_network : Graph)
    (walk_speed : Qc) : ConnectionScanProfiler :=
  {| _has_run := false;
     _target := target_stop;
     _connections := transit_events;
     _start_time := start_time;
     _end_time := end_time;
     _transfer_margin := transfer_margin;
     _walk_network := walk_network;
     _walk_speed := walk_speed;
     __trip_min_arrival_time := ∅;
     _stop_profiles := <[target_stop := IdentityNodeProfile]> ∅;
     trace := [] |}.

(** One edge of the loop of [_scan_footpaths_to_departure_stop]. *)
Definition scan_footpath (connection_dep_time arrival_time_target : Qc)
    (_ : unit) (edge : stop * Qc) : M unit :=
  let '(neighbor, distance_shape) := edge in
  walk_speed <- attr _walk_speed ;;
  walk_duration <- py_div distance_shape walk_speed ;;
  let neighbor_dep_time := float_sub connection_dep_time walk_duration in
  let pt := {| pt_departure_time := neighbor_dep_time;
               arrival_time_target := arrival_time_target |} in
  neighbor_profile <- stop_profiles_getitem neighbor ;;
  call_update_pareto_optimal_tuples neighbor_profile pt ;;;
  ret tt.

Definition _scan_footpaths_to_departure_stop (connection_dep_stop : stop)
    (connection_dep_time arrival_time_target : Qc) : M unit :=
  walk_network <- attr _walk_network ;;
  for_in (edges_iter walk_network connection_dep_stop)
         (scan_footpath connection_dep_time arrival_time_target) tt.

(** The body of the loop of [_run]; the local [latest_dep_time] goes in and
    comes out.  [assert(isinstance(connection, Connection))] holds by
    typing. *)
Definition scan_connection (latest_dep_time : num) (connection : Connection)
  : M num :=
  let departure_time := departure_time connection in
  py_assert (num_le (Fin departure_time) latest_dep_time) ;;;
  let latest_dep_time := Fin departure_time in
  let arrival_time := arrival_time connection in
  let departure_stop := departure_stop connection in
  let arrival_stop := arrival_stop connection in
  let trip_id := trip_id connection in
  arrival_profile <- stop_profiles_getitem arrival_stop ;;
  dep_stop_profile <- stop_profiles_getitem departure_stop ;;
  transfer_margin <- attr _transfer_margin ;;
  earliest_arrival_time <-
    call_get_earliest_arrival_time_at_target arrival_profile
      (arrival_time + transfer_margin) ;;
  trip_arrival_time <- trip_min_arrival_time_getitem trip_id ;;
  let min_arrival_time := py_min trip_arrival_time earliest_arrival_time in
  match min_arrival_time with
  | Inf => ret latest_dep_time
  | Fin min_arrival =>
      (if num_lt min_arrival_time trip_arrival_time
       then trip_min_arrival_time_setitem trip_id earliest_arrival_time
       else ret tt) ;;;
      let pareto_tuple := {| pt_departure_time := departure_time;
                             arrival_time_target := min_arrival |} in
      updated_dep_stop <-
        call_update_pareto_optimal_tuples dep_stop_profile pareto_tuple ;;
      (if updated_dep_stop
       then _scan_footpaths_to_departure_stop departure_stop departure_time
              min_arrival
       else ret tt) ;;;
      ret latest_dep_time
  end.

Definition _run : M unit :=
  let latest_dep_time := Inf in
  connections <- attr _connections ;;
  for_in connections scan_connection latest_dep_time ;;;
  ret tt.

(** Modelled from the spec: [AbstractRoutingAlgorithm.run] of
    gtfspy/routing/abstract_routing_algorithm.py (section 5: a sweep
    executes once, a second start fails, and the "has completed" flag is
    set when [_run] has come back). *)
Definition run : M unit := λ self,
  if _has_run self then (self, Raised RuntimeError)
  else match _run self with
       | (self', Ok _) => (set_has_run true self', Ok tt)
       | (self', Raised e) => (self', Raised e)
       end.

(** The property [stop_profiles]. *)
Definition stop_profiles : M (gmap stop profile) :=
  has_run <- attr _has_run ;;
  py_assert has_run ;;;
  attr _stop_profiles.

(** ** The vocabulary of the specification *)

(** Step 1 of the scan: the best arrival by a transfer at the arrival
    location of [c], the margin included. *)
Definition transfer_arrival (self : ConnectionScanProfiler) (c : Connection)
  : num :=
  get_earliest_arrival_time_at_target (profile_at self (arrival_stop c))
    (arrival_time c + _transfer_margin self).

(** Step 2: the tracker's value for the trip of [c], no margin. *)
Definition trip_arrival (self : ConnectionScanProfiler) (c : Connection)
  : num :=
  trip_value self (trip_id c).

(** Step 3. *)
Definition best_arrival (self : ConnectionScanProfiler) (c : Connection)
  : num :=
  py_min (trip_arrival self c) (transfer_arrival self c).

(** What Python computes for [dep - d / walk_speed]: a double, the
    quotient and the difference each rounded. *)
Definition walk_departure (dep d walk_speed : Qc) : Qc :=
  float_sub dep (float_truediv d walk_speed).

(** The tuple that footpath propagation offers across one walk edge. *)
Definition footpath_tuple (walk_speed dep arr : Qc) (edge : stop * Qc)
  : ParetoTuple :=
  {| pt_departure_time := walk_departure dep edge.2 walk_speed;
     arrival_time_target := arr |}.

(** A dictionary of profiles after a read of key [s]. *)
Definition touched (s : stop) (m : gmap stop profile) : gmap stop profile :=
  match m !! s with
  | Some _ => m
  | None => <[s := NodeProfile []]> m
  end.

(** A dictionary of profiles after [pt] was merged into the frontier of
    [s]. *)
Definition merge_at (s : stop) (pt : ParetoTuple) (m : gmap stop profile)
  : gmap stop profile :=
  <[s := (update_pareto_optimal_tuples (default (NodeProfile []) (m !! s)) pt).1]> m.

(** The instance after one call of [update_pareto_optimal_tuples] on the
    profile of [s]. *)
Definition merged (s : stop) (pt : ParetoTuple) (self : ConnectionScanProfiler)
  : ConnectionScanProfiler :=
  log (Merge s pt) (set_stop_profiles (merge_at s pt (_stop_profiles self)) self).

(** The instance after one-hop propagation of [(dep, arr)] from [L]. *)
Definition propagated (L : stop) (dep arr : Qc) (self : ConnectionScanProfiler)
  : ConnectionScanProfiler :=
  foldl (λ st e, merged e.1 (footpath_tuple (_walk_speed self) dep arr e) st)
        self (edges_iter (_walk_network self) L).

(** A dictionary of tracker values after a read of key [i]. *)
Definition touched_trip (i : trip) (m : gmap trip num) : gmap trip num :=
  match m !! i with
  | Some _ => m
  | None => <[i := Inf]> m
  end.

(** The instance once steps 1 and 2 of the scan of [c] have read the
    frontier of the arrival location and the tracker. *)
Definition after_reads (self : ConnectionScanProfiler) (c : Connection)
  : ConnectionScanProfiler :=
  log (TripRead (trip_id c))
    (set_trip_min_arrival_time
       (touched_trip (trip_id c) (__trip_min_arrival_time self))
       (log (Query (arrival_stop c) (arrival_time c + _transfer_margin self))
          (set_stop_profiles
             (touched (departure_stop c)
                (touched (arrival_stop c) (_stop_profiles self)))
             self))).

(** The instance once steps 5 and 6 have improved the tracker and merged
    the tuple with the finite best arrival [a]. *)
Definition after_merge (self : ConnectionScanProfiler) (c : Connection)
    (a : Qc) : ConnectionScanProfiler :=
  let st := after_reads self c in
  let st :=
    if num_lt (Fin a) (trip_arrival self c)
    then log (TripWrite (trip_id c) (transfer_arrival self c))
           (set_trip_min_arrival_time
              (<[trip_id c := transfer_arrival self c]>
                 (__trip_min_arrival_time st)) st)
    else st in
  merged (departure_stop c)
    {| pt_departure_time := departure_time c; arrival_time_target := a |} st.

(** Whether the merge of [pt] changes the frontier of [s]. *)
Definition merge_changes (self : ConnectionScanProfiler) (s : stop)
    (pt : ParetoTuple) : bool :=
  (update_pareto_optimal_tuples (profile_at self s) pt).2.

(** The walk edges across which the scan of [c], with the finite best
    arrival [a], propagates. *)
Definition propagation_edges (self : ConnectionScanProfiler) (c : Connection)
    (a : Qc) : list (stop * Qc) :=
  if merge_changes self (departure_stop c)
       {| pt_departure_time := departure_time c; arrival_time_target := a |}
     && negb (bool_decide (_walk_speed self = 0))
  then edges_iter (_walk_network self) (departure_stop c)
  else [].

Definition is_merge (e : event) : bool :=
  match e with Merge _ _ => true | _ => false end.

Definition is_trip_write (e : event) : bool :=
  match e with TripWrite _ _ => true | _ => false end.

(** The fields that the constructor receives and the sweep only reads. *)
Definition same_inputs (s s' : ConnectionScanProfiler) : Prop :=
  _has_run s' = _has_run s ∧ _target s' = _target s
  ∧ _connections s' = _connections s
  ∧ _start_time s' = _start_time s ∧ _end_time s' = _end_time s
  ∧ _transfer_margin s' = _transfer_margin s
  ∧ _walk_network s' = _walk_network s ∧ _walk_speed s' = _walk_speed s.

(** The tracker across a loop of the scan: no entry is lost and no value
    gets worse. *)
Definition tracker_improved (s s' : ConnectionScanProfiler) : Prop :=
  (∀ i, num_le (trip_value s' i) (trip_value s i) = true)
  ∧ dom (__trip_min_arrival_time s) ⊆ dom (__trip_min_arrival_time s').

(** The order check of [_run] along a list of connections, [latest] being
    the departure time seen last. *)
Fixpoint ordered_from (latest : num) (l : list Connection) : bool :=
  match l with
  | [] => true
  | c :: rest =>
      num_le (Fin (departure_time c)) latest
      && ordered_from (Fin (departure_time c)) rest
  end.

(** A computation that neither reads nor writes the window bounds
    [_start_time] and [_end_time]. *)
Definition window_blind {A} (m : M A) : Prop :=
  ∀ a b self, m (set_window a b self) = (set_window a b (m self).1, (m self).2).

(** The instances met during a sweep: a new one, and the ones that the
    scan of further connections leaves. *)
Inductive sweeping : ConnectionScanProfiler → Prop :=
  | sweeping_init transit_events target_stop start_time end_time
      transfer_margin walk_network walk_speed :
      sweeping (__init__ transit_events target_stop start_time end_time
                  transfer_margin walk_network walk_speed)
  | sweeping_scan self latest_dep_time connection :
      sweeping self →
      sweeping (scan_connection latest_dep_time connection self).1.

(** The life of an instance through its public method [run], with whether
    a sweep has run to completion on it. *)
Inductive lifecycle : ConnectionScanProfiler → bool → Prop :=
  | lifecycle_new transit_events target_stop start_time end_time
      transfer_margin walk_network walk_speed :
      lifecycle (__init__ transit_events target_stop start_time end_time
                   transfer_margin walk_network walk_speed) false
  | lifecycle_run_completed self completed :
      lifecycle self completed →
      (run self).2 = Ok tt →
      lifecycle (run self).1 true
  | lifecycle_run_raised self completed e :
      lifecycle self completed →
      (run self).2 = Raised e →
      lifecycle (run self).1 completed.








(** ** A small network for the examples

    Stop 0 is the target; stops 1 (A) and 2 (B) are joined by a walk edge
    of distance 1; the walking speed is 2. *)

Definition connection (dep_stop arr_stop : stop) (dep arr : Z) (i : trip)
  : Connection :=
  {| departure_stop := dep_stop; arrival_stop := arr_stop;
     departure_time := Qc_of_Z dep; arrival_time := Qc_of_Z arr;
     trip_id := i |}.
Arguments connection (dep_stop arr_stop dep arr i)%_Z.

Definition walk_AB : Graph :=
  {| edges_iter := λ s,
       if bool_decide (s = 2%Z) then [(1%Z, Qc_of_Z 1)]
       else if bool_decide (s = 1%Z) then [(2%Z, Qc_of_Z 1)]
       else [] |}.

(** The hop from B to the target and, earlier, the hop from A to B. *)
Definition hop_B_target : Connection := connection 2 0 10 15 1.
Definition hop_A_B : Connection := connection 1 2 5 9 2.

Definition example_sweep : ConnectionScanProfiler :=
  __init__ [hop_B_target; hop_A_B] 0%Z
    (Qc_of_Z 0) (Qc_of_Z 100) (Qc_of_Z 0) walk_AB (Qc_of_Z 2).

(** Two connections leaving at the same time. *)
Definition example_ties : ConnectionScanProfiler :=
  __init__ [hop_B_target; connection 1 0 10 12 2] 0%Z
    (Qc_of_Z 0) (Qc_of_Z 100) (Qc_of_Z 0) walk_AB (Qc_of_Z 2).

(** The scenario of section 8 of the specification: the same two hops, no
    walk edge, and a transfer margin to choose. *)
Definition no_walk : Graph := {| edges_iter := λ _, [] |}.

Definition scenario (transfer_margin : Z) : ConnectionScanProfiler :=
  __init__ [hop_B_target; hop_A_B] 0%Z
    (Qc_of_Z 0) (Qc_of_Z 100) (Qc_of_Z transfer_margin) no_walk (Qc_of_Z 1).

(** The tuples of the frontier of [s], as pairs of fractions. *)
Definition frontier (self : ConnectionScanProfiler) (s : stop)
  : option (list (Q * Q)) :=
  match profile_at self s with
  | NodeProfile tuples =>
      Some (map (λ pt, (this (pt_departure_time pt),
                        this (arrival_time_target pt))) tuples)
  | IdentityNodeProfile => None
  end.
Arguments frontier self s%_Z.
Arguments scenario transfer_margin%_Z.

(** The second connection leaves after the first. *)
Definition example_disorder : ConnectionScanProfiler :=
  __init__ [hop_B_target; connection 1 0 12 14 2] 0%Z
    (Qc_of_Z 0) (Qc_of_Z 100) (Qc_of_Z 0) walk_AB (Qc_of_Z 2).

(** ** The vocabulary of the further properties *)

Definition is_read (e : event) : bool :=
  match e with
  | Query _ _ | TripRead _ => true
  | _ => false
  end.

(** The two reads that open the scan of [c]. *)
Definition reads_of (transfer_margin : Qc) (c : Connection) : list event :=
  [Query (arrival_stop c) (arrival_time c + transfer_margin);
   TripRead (trip_id c)].

(** Only the walking speed replaced. *)
Definition set_walk_speed (v : Qc) (self : ConnectionScanProfiler) :=
  {| _has_run := _has_run self;
     _target := _target self;
     _connections := _connections self;
     _start_time := _start_time self;
     _end_time := _end_time self;
     _transfer_margin := _transfer_margin self;
     _walk_network := _walk_network self;
     _walk_speed := v;
     __trip_min_arrival_time := __trip_min_arrival_time self;
     _stop_profiles := _stop_profiles self;
     trace := trace self |}.

(** The stops and trips that a list of connections names. *)
Definition departure_stops (l : list Connection) : gset stop :=
  list_to_set (departure_stop <$> l).

Definition arrival_stops (l : list Connection) : gset stop :=
  list_to_set (arrival_stop <$> l).

Definition trip_ids (l : list Connection) : gset trip :=
  list_to_set (trip_id <$> l).

(** The stops joined by a walk edge to the departure stop of one of the
    connections. *)
Definition walk_neighbours (g : Graph) (l : list Connection) : gset stop :=
  list_to_set (flat_map (λ c, (edges_iter g (departure_stop c)).*1) l).

(** The example with a walking speed of three. *)
Definition example_thirds : ConnectionScanProfiler :=
  __init__ [hop_B_target; hop_A_B] 0%Z
    (Qc_of_Z 0) (Qc_of_Z 100) (Qc_of_Z 0) walk_AB (Qc_of_Z 3).

(** Claim C2 with the arithmetic taken as exact: every neighbour of the
    departure stop of [c] is offered the tuple that leaves at exactly
    [departure_time c - d / walk_speed]. *)
Definition offers_exact_walking_time (self self' : ConnectionScanProfiler)
    (c : Connection) (a : Qc) : Prop :=
  ∀ e, e ∈ edges_iter (_walk_network self) (departure_stop c) →
       Merge e.1 {| pt_departure_time :=
                      departure_time c - e.2 / _walk_speed self;
                    arrival_time_target := a |}
       ∈ trace self'.

(** The example with a walking speed of zero. *)
Definition example_zero_speed : ConnectionScanProfiler :=
  __init__ [hop_B_target; hop_A_B] 0%Z
    (Qc_of_Z 0) (Qc_of_Z 100) (Qc_of_Z 0) walk_AB 0.

(** A later hop of the trip of [hop_B_target], scanned after it. *)
Definition hop_A_B_same_trip : Connection := connection 1 2 5 9 1.

(** * Properties *)

(** ** The primitives, one at a time *)

Lemma bind_attr {A B} (field : ConnectionScanProfiler → A) (k : A → M B) self :
  bind (attr field) k self = k (field self) self.
Proof. reflexivity. Qed.

Lemma bind_ret {A B} (a : A) (k : A → M B) self :
  bind (ret a) k self = k a self.
Proof. reflexivity. Qed.

Lemma bind_raise {A B} e (k : A → M B) self :
  bind (raise e) k self = (self, Raised e).
Proof. reflexivity. Qed.

Lemma bind_stop_profiles_getitem {B} s (k : stop → M B) self :
  bind (stop_profiles_getitem s) k self
  = k s (set_stop_profiles (touched s (_stop_profiles self)) self).
Proof.
  unfold bind, stop_profiles_getitem, touched.
  destruct self as [hr tg cs st en tm wn ws tr sp lg]; simpl.
  by destruct (sp !! s).
Qed.

Lemma bind_get_earliest {B} ref t (k : num → M B) self :
  bind (call_get_earliest_arrival_time_at_target ref t) k self
  = k (get_earliest_arrival_time_at_target (profile_at self ref) t)
      (log (Query ref t) self).
Proof. reflexivity. Qed.

Lemma bind_trip_getitem {B} i (k : num → M B) self :
  bind (trip_min_arrival_time_getitem i) k self
  = k (trip_value self i)
      (log (TripRead i)
         (set_trip_min_arrival_time
            (touched_trip i (__trip_min_arrival_time self)) self)).
Proof.
  unfold bind, trip_min_arrival_time_getitem, touched_trip, trip_value.
  destruct self as [hr tg cs st en tm wn ws tr sp lg]; simpl.
  by destruct (tr !! i).
Qed.

Lemma bind_trip_setitem {B} i v (k : unit → M B) self :
  bind (trip_min_arrival_time_setitem i v) k self
  = k tt (log (TripWrite i v)
            (set_trip_min_arrival_time
               (<[i := v]> (__trip_min_arrival_time self)) self)).
Proof. reflexivity. Qed.

Lemma bind_update {B} ref pt (k : bool → M B) self :
  bind (call_update_pareto_optimal_tuples ref pt) k self
  = k (merge_changes self ref pt) (merged ref pt self).
Proof. reflexivity. Qed.

Lemma lookup_touched s s' (m : gmap stop profile) :
  default (NodeProfile []) (touched s m !! s')
  = default (NodeProfile []) (m !! s').
Proof.
  unfold touched. destruct (m !! s) eqn:E; [done|].
  destruct (decide (s = s')) as [<-|Hne].
  - by rewrite lookup_insert_eq, E.
  - by rewrite lookup_insert_ne.
Qed.

Lemma lookup_touched_trip i j (m : gmap trip num) :
  default Inf (touched_trip i m !! j) = default Inf (m !! j).
Proof.
  unfold touched_trip. destruct (m !! i) eqn:E; [done|].
  destruct (decide (i = j)) as [<-|Hne].
  - by rewrite lookup_insert_eq, E.
  - by rewrite lookup_insert_ne.
Qed.

Lemma merge_at_touched s pt (m : gmap stop profile) :
  merge_at s pt (touched s m) = merge_at s pt m.
Proof.
  unfold merge_at. rewrite lookup_touched. unfold touched.
  destruct (m !! s); [done|]. by rewrite insert_insert_eq.
Qed.

(** ** Footpath propagation *)

Lemma scan_footpath_eq dep arr e self :
  _walk_speed self ≠ 0 →
  scan_footpath dep arr tt e self
  = (merged e.1 (footpath_tuple (_walk_speed self) dep arr e) self, Ok tt).
Proof.
  intros Hs. destruct e as [n d]. unfold scan_footpath.
  rewrite bind_attr. unfold py_div. rewrite bool_decide_false by done.
  rewrite bind_ret, bind_stop_profiles_getitem, bind_update.
  unfold ret, merged, merge_changes, footpath_tuple; simpl.
  by rewrite merge_at_touched.
Qed.

Lemma scan_footpath_zero dep arr e self :
  _walk_speed self = 0 →
  scan_footpath dep arr tt e self = (self, Raised ZeroDivisionError).
Proof.
  intros Hs. destruct e as [n d]. unfold scan_footpath.
  rewrite bind_attr. unfold py_div. by rewrite bool_decide_true.
Qed.

Lemma for_in_scan_footpath edges dep arr self :
  _walk_speed self ≠ 0 →
  for_in edges (scan_footpath dep arr) tt self
  = (foldl (λ st e, merged e.1 (footpath_tuple (_walk_speed self) dep arr e) st)
           self edges, Ok tt).
Proof.
  revert self. induction edges as [|e edges IH]; intros self Hs; [done|].
  simpl. unfold bind at 1. rewrite scan_footpath_eq by done.
  by rewrite IH.
Qed.

Lemma scan_footpaths_eq L dep arr self :
  _walk_speed self ≠ 0 →
  _scan_footpaths_to_departure_stop L dep arr self
  = (propagated L dep arr self, Ok tt).
Proof.
  intros Hs. unfold _scan_footpaths_to_departure_stop. rewrite bind_attr.
  by rewrite for_in_scan_footpath.
Qed.

Lemma scan_footpaths_zero L dep arr self :
  _walk_speed self = 0 →
  _scan_footpaths_to_departure_stop L dep arr self
  = (self, match edges_iter (_walk_network self) L with
           | [] => Ok tt
           | _ :: _ => Raised ZeroDivisionError
           end).
Proof.
  intros Hs. unfold _scan_footpaths_to_departure_stop. rewrite bind_attr.
  destruct (edges_iter _ L) as [|e edges]; [done|].
  simpl. unfold bind. by rewrite scan_footpath_zero.
Qed.

Ltac fields :=
  cbn [_has_run _target _connections _start_time _end_time _transfer_margin
       _walk_network _walk_speed __trip_min_arrival_time _stop_profiles trace
       set_has_run set_trip_min_arrival_time set_stop_profiles log set_window].

(** ** The scan of one connection *)

Lemma merge_and_propagate st ds d a :
  (updated_dep_stop <-
     call_update_pareto_optimal_tuples ds
       {| pt_departure_time := d; arrival_time_target := a |} ;;
   (if updated_dep_stop
    then _scan_footpaths_to_departure_stop ds d a
    else ret tt) ;;;
   ret (Fin d)) st
  = if merge_changes st ds {| pt_departure_time := d; arrival_time_target := a |}
    then match _scan_footpaths_to_departure_stop ds d a
                 (merged ds {| pt_departure_time := d;
                               arrival_time_target := a |} st) with
         | (s', Ok _) => (s', Ok (Fin d))
         | (s', Raised e) => (s', Raised e)
         end
    else (merged ds {| pt_departure_time := d; arrival_time_target := a |} st,
          Ok (Fin d)).
Proof.
  rewrite bind_update. destruct (merge_changes st ds _); [|done].
  unfold bind. by destruct (_scan_footpaths_to_departure_stop _ _ _ _) as [s' [[]|e]].
Qed.

Lemma scan_connection_eq latest c self :
  scan_connection latest c self =
  if num_le (Fin (departure_time c)) latest then
    match best_arrival self c with
    | Inf => (after_reads self c, Ok (Fin (departure_time c)))
    | Fin a =>
        if merge_changes self (departure_stop c)
             {| pt_departure_time := departure_time c;
                arrival_time_target := a |}
        then
          match _scan_footpaths_to_departure_stop (departure_stop c)
                  (departure_time c) a (after_merge self c a) with
          | (s', Ok _) => (s', Ok (Fin (departure_time c)))
          | (s', Raised e) => (s', Raised e)
          end
        else (after_merge self c a, Ok (Fin (departure_time c)))
    end
  else (self, Raised AssertionError).
Proof.
  unfold scan_connection.
  destruct (num_le (Fin (departure_time c)) latest); simpl py_assert.
  2: { by rewrite bind_raise. }
  rewrite bind_ret, !bind_stop_profiles_getitem, bind_attr, bind_get_earliest,
    bind_trip_getitem.
  cbv beta. unfold profile_at at 1 2 3, trip_value at 1 2 3. fields.
  rewrite !lookup_touched.
  change (default Inf (__trip_min_arrival_time self !! trip_id c))
    with (trip_arrival self c).
  change (get_earliest_arrival_time_at_target _ _)
    with (transfer_arrival self c).
  change (py_min (trip_arrival self c) (transfer_arrival self c))
    with (best_arrival self c).
  destruct (best_arrival self c) as [a|] eqn:Hbest; [|done].
  unfold after_merge.
  destruct (num_lt (Fin a) (trip_arrival self c));
    [rewrite bind_trip_setitem | rewrite bind_ret];
    (etransitivity; [apply merge_and_propagate|]);
    match goal with
    | |- (if merge_changes ?st ?ds ?pt then _ else _) = _ =>
        assert (merge_changes st ds pt = merge_changes self ds pt) as ->
          by (unfold merge_changes, profile_at; fields;
              by rewrite !lookup_touched)
    end; reflexivity.
Qed.

(** ** What the intermediate instances hold *)

Lemma same_inputs_refl s : same_inputs s s.
Proof. by repeat split. Qed.

Lemma same_inputs_trans s1 s2 s3 :
  same_inputs s1 s2 → same_inputs s2 s3 → same_inputs s1 s3.
Proof.
  unfold same_inputs. intros (?&?&?&?&?&?&?&?) (?&?&?&?&?&?&?&?).
  repeat split; congruence.
Qed.

Lemma after_reads_trace self c :
  trace (after_reads self c)
  = trace self ++ [Query (arrival_stop c) (arrival_time c + _transfer_margin self);
                   TripRead (trip_id c)].
Proof. unfold after_reads. fields. by rewrite <- app_assoc. Qed.

Lemma after_reads_profile_at self c s :
  profile_at (after_reads self c) s = profile_at self s.
Proof. unfold profile_at, after_reads. fields. by rewrite !lookup_touched. Qed.

Lemma after_reads_trip_value self c i :
  trip_value (after_reads self c) i = trip_value self i.
Proof. unfold trip_value, after_reads. fields. by rewrite lookup_touched_trip. Qed.

Lemma after_reads_inputs self c : same_inputs self (after_reads self c).
Proof. by repeat split. Qed.

Lemma touched_trip_dom i (m : gmap trip num) : dom m ⊆ dom (touched_trip i m).
Proof.
  unfold touched_trip. destruct (m !! i); [done|].
  rewrite dom_insert_L. set_solver.
Qed.

Lemma after_reads_trips_dom self c :
  dom (__trip_min_arrival_time self)
  ⊆ dom (__trip_min_arrival_time (after_reads self c)).
Proof. unfold after_reads. fields. apply touched_trip_dom. Qed.

Lemma after_merge_trace self c a :
  trace (after_merge self c a)
  = trace self
    ++ [Query (arrival_stop c) (arrival_time c + _transfer_margin self);
        TripRead (trip_id c)]
    ++ (if num_lt (Fin a) (trip_arrival self c)
        then [TripWrite (trip_id c) (transfer_arrival self c)] else [])
    ++ [Merge (departure_stop c)
          {| pt_departure_time := departure_time c;
             arrival_time_target := a |}].
Proof.
  unfold after_merge, merged.
  destruct (num_lt (Fin a) (trip_arrival self c)); fields;
    rewrite after_reads_trace; by rewrite <- !app_assoc.
Qed.

Lemma after_merge_trip_value self c a i :
  trip_value (after_merge self c a) i
  = if num_lt (Fin a) (trip_arrival self c) && bool_decide (i = trip_id c)
    then transfer_arrival self c
    else trip_value self i.
Proof.
  unfold after_merge, merged.
  destruct (num_lt (Fin a) (trip_arrival self c)); simpl andb.
  - unfold trip_value at 1. fields. case_bool_decide as Hi.
    + subst i. by rewrite lookup_insert_eq.
    + rewrite lookup_insert_ne by done. apply after_reads_trip_value.
  - unfold trip_value at 1. fields. apply after_reads_trip_value.
Qed.

Lemma after_merge_profile_at self c a s :
  profile_at (after_merge self c a) s
  = if bool_decide (s = departure_stop c)
    then (update_pareto_optimal_tuples (profile_at self (departure_stop c))
            {| pt_departure_time := departure_time c;
               arrival_time_target := a |}).1
    else profile_at self s.
Proof.
  unfold after_merge, merged, merge_at.
  assert (∀ s', default (NodeProfile [])
      (_stop_profiles
         (if num_lt (Fin a) (trip_arrival self c)
          then log (TripWrite (trip_id c) (transfer_arrival self c))
                 (set_trip_min_arrival_time
                    (<[trip_id c:=transfer_arrival self c]>
                       (__trip_min_arrival_time (after_reads self c)))
                    (after_reads self c))
          else after_reads self c) !! s') = profile_at self s') as E.
  { intros s'. rewrite <- (after_reads_profile_at self c s').
    by destruct (num_lt _ _). }
  unfold profile_at at 1. fields. case_bool_decide as Hs.
  - subst s. rewrite lookup_insert_eq. simpl. by rewrite E.
  - rewrite lookup_insert_ne by done. apply E.
Qed.

Lemma after_merge_inputs self c a : same_inputs self (after_merge self c a).
Proof.
  unfold after_merge, merged.
  destruct (num_lt (Fin a) (trip_arrival self c)); by repeat split.
Qed.

Lemma after_merge_trips_dom self c a :
  dom (__trip_min_arrival_time self)
  ⊆ dom (__trip_min_arrival_time (after_merge self c a)).
Proof.
  unfold after_merge, merged.
  pose proof (after_reads_trips_dom self c).
  destruct (num_lt (Fin a) (trip_arrival self c)); fields; [|done].
  rewrite dom_insert_L. set_solver.
Qed.

Lemma foldl_merged_trace {E} (s : E → stop) (f : E → ParetoTuple) edges st :
  trace (foldl (λ st e, merged (s e) (f e) st) st edges)
  = trace st ++ map (λ e, Merge (s e) (f e)) edges.
Proof.
  revert st. induction edges as [|e edges IH]; intros st; simpl.
  - by rewrite app_nil_r.
  - rewrite IH. unfold merged. fields. by rewrite <- app_assoc.
Qed.

Lemma foldl_merged_trips {E} (s : E → stop) (f : E → ParetoTuple) edges st :
  __trip_min_arrival_time (foldl (λ st e, merged (s e) (f e) st) st edges)
  = __trip_min_arrival_time st.
Proof.
  revert st. induction edges as [|e edges IH]; intros st; simpl; [done|].
  by rewrite IH.
Qed.

Lemma foldl_merged_inputs {E} (s : E → stop) (f : E → ParetoTuple) edges st :
  same_inputs st (foldl (λ st e, merged (s e) (f e) st) st edges).
Proof.
  revert st. induction edges as [|e edges IH]; intros st; simpl.
  - apply same_inputs_refl.
  - eapply same_inputs_trans; [|apply IH]. by repeat split.
Qed.

Lemma foldl_merged_stop_profiles {E} (s : E → stop) (f : E → ParetoTuple)
    edges st :
  _stop_profiles (foldl (λ st e, merged (s e) (f e) st) st edges)
  = foldl (λ m e, merge_at (s e) (f e) m) (_stop_profiles st) edges.
Proof.
  revert st. induction edges as [|e edges IH]; intros st; simpl; [done|].
  by rewrite IH.
Qed.

Lemma propagated_trace L dep arr self :
  trace (propagated L dep arr self)
  = trace self
    ++ map (λ e, Merge e.1 (footpath_tuple (_walk_speed self) dep arr e))
           (edges_iter (_walk_network self) L).
Proof. apply (foldl_merged_trace fst). Qed.

(** The scan of a connection with a finite best arrival, in closed form. *)
Lemma scan_connection_finite latest c self a :
  num_le (Fin (departure_time c)) latest = true →
  best_arrival self c = Fin a →
  scan_connection latest c self
  = (foldl (λ st e, merged e.1
                      (footpath_tuple (_walk_speed self) (departure_time c) a e)
                      st)
           (after_merge self c a) (propagation_edges self c a),
     if merge_changes self (departure_stop c)
          {| pt_departure_time := departure_time c; arrival_time_target := a |}
        && bool_decide (_walk_speed self = 0)
     then match edges_iter (_walk_network self) (departure_stop c) with
          | [] => Ok (Fin (departure_time c))
          | _ :: _ => Raised ZeroDivisionError
          end
     else Ok (Fin (departure_time c))).
Proof.
  intros Hle Hbest. rewrite scan_connection_eq, Hle, Hbest.
  unfold propagation_edges.
  destruct (after_merge_inputs self c a) as (_&_&_&_&_&_&Hnet&Hspeed).
  destruct (merge_changes self _ _); simpl andb; [|done].
  case_bool_decide as Hz; simpl negb.
  - rewrite scan_footpaths_zero by congruence. rewrite Hnet.
    by destruct (edges_iter _ _).
  - rewrite scan_footpaths_eq by congruence.
    unfold propagated. by rewrite Hnet, Hspeed.
Qed.

Lemma scan_connection_unreachable latest c self :
  num_le (Fin (departure_time c)) latest = true →
  best_arrival self c = Inf →
  scan_connection latest c self
  = (after_reads self c, Ok (Fin (departure_time c))).
Proof. intros Hle Hbest. by rewrite scan_connection_eq, Hle, Hbest. Qed.

Lemma scan_connection_out_of_order latest c self :
  num_le (Fin (departure_time c)) latest = false →
  scan_connection latest c self = (self, Raised AssertionError).
Proof. intros Hle. by rewrite scan_connection_eq, Hle. Qed.

Lemma py_min_unreachable a b : py_min a b = Inf ↔ a = Inf ∧ b = Inf.
Proof.
  unfold py_min.
  destruct a as [x|], b as [y|]; simpl;
    [destruct (bool_decide (y < x))| | |];
    (split; [intros ?|intros [? ?]]; (done || congruence)).
Qed.

(** When the tracker is improved, the transfer arrival is the best one and
    lies strictly below the stored value. *)
Lemma py_min_improves a b :
  num_lt (py_min a b) a = true → py_min a b = b ∧ num_lt b a = true.
Proof.
  unfold py_min. destruct (num_lt b a) eqn:E; [done|].
  destruct a as [x|]; simpl; [|done].
  case_bool_decide as H; [|done]. by apply Qclt_not_eq in H.
Qed.

(** C1: the scan of a connection [c] queries the frontier of the arrival
    location at [arrival_time c + transfer_margin], reads the tracker entry
    of the trip of [c] as it is, and takes the minimum of the two as the
    best arrival; when that is finite, the first merge of the step offers
    [(departure_time c, best_arrival)] to the frontier of the departure
    location, and the dictionary of profiles that the step leaves is the
    one obtained by that merge followed by the footpath merges. *)
Theorem scan_connection_merges_best_arrival latest c self :
  num_le (Fin (departure_time c)) latest = true →
  let query_time := arrival_time c + _transfer_margin self in
  let transfer :=
    get_earliest_arrival_time_at_target (profile_at self (arrival_stop c))
      query_time in
  let best := py_min (trip_value self (trip_id c)) transfer in
  let self' := (scan_connection latest c self).1 in
  best_arrival self c = best
  ∧ ∃ rest,
      trace self'
      = trace self ++ Query (arrival_stop c) query_time
                      :: TripRead (trip_id c) :: rest
      ∧ ∀ a, best = Fin a →
          let pt := {| pt_departure_time := departure_time c;
                       arrival_time_target := a |} in
          ∃ writes footpaths,
            rest = writes ++ Merge (departure_stop c) pt
                             :: map (λ e, Merge e.1 e.2) footpaths
            ∧ Forall (λ e, is_merge e = false) writes
            ∧ _stop_profiles self'
              = foldl (λ m e, merge_at e.1 e.2 m)
                  (merge_at (departure_stop c) pt
                     (touched (arrival_stop c) (_stop_profiles self)))
                  footpaths.
Proof.
  intros Hle query_time transfer best self'. split; [done|].
  destruct best as [a|] eqn:Hbest.
  - set (pt := {| pt_departure_time := departure_time c;
                  arrival_time_target := a |}).
    set (fp := map (λ e, (e.1, footpath_tuple (_walk_speed self)
                                 (departure_time c) a e))
                   (propagation_edges self c a)).
    exists ((if num_lt (Fin a) (trip_arrival self c)
             then [TripWrite (trip_id c) (transfer_arrival self c)] else [])
            ++ Merge (departure_stop c) pt :: map (λ e, Merge e.1 e.2) fp).
    assert (self' = foldl (λ st e, merged e.1
                     (footpath_tuple (_walk_speed self) (departure_time c) a e)
                     st)
              (after_merge self c a) (propagation_edges self c a)) as ->.
    { unfold self'. by rewrite (scan_connection_finite latest c self a). }
    split.
    + rewrite (foldl_merged_trace fst), after_merge_trace.
      unfold fp. rewrite map_map, <- !app_assoc. by cbn [app].
    + intros a' [= <-]. eexists _, fp. split; [done|]. split.
      * by destruct (num_lt _ _); repeat constructor.
      * rewrite (foldl_merged_stop_profiles fst). unfold fp.
        rewrite foldl_fmap. cbn [fst snd]. f_equal.
        unfold after_merge, merged, after_reads.
        destruct (num_lt _ _); fields; apply merge_at_touched.
  - exists []. split; [|done]. unfold self'.
    rewrite scan_connection_unreachable by done. apply after_reads_trace.
Qed.

(** C2, as amended: footpath propagation from the departure location [L] of
    a connection runs exactly when the merge of [(dep, arr)] into the
    frontier of [L] reported a change; it then offers to the frontier of
    every neighbour across an edge of distance [d], in the graph's order,
    one tuple with the arrival time [arr] and with the departure time that
    Python computes for [dep - d / walk_speed], a double, the quotient and
    the difference each rounded to nearest; and nothing else: the dictionary
    of profiles that the step leaves is the one obtained by these one-hop
    merges alone, whatever they change. *)
Theorem footpaths_iff_changed_one_hop latest c self a :
  num_le (Fin (departure_time c)) latest = true →
  best_arrival self c = Fin a →
  _walk_speed self ≠ 0 →
  let L := departure_stop c in
  let dep := departure_time c in
  (∀ e, e ∈ edges_iter (_walk_network self) L →
        walk_in_range dep e.2 (_walk_speed self) = true) →
  let pt := {| pt_departure_time := dep; arrival_time_target := a |} in
  let changed := (update_pareto_optimal_tuples (profile_at self L) pt).2 in
  let offers :=
    if changed
    then map (λ e, (e.1, {| pt_departure_time :=
                              float_sub dep (float_truediv e.2 (_walk_speed self));
                            arrival_time_target := a |}))
             (edges_iter (_walk_network self) L)
    else [] in
  let self' := (scan_connection latest c self).1 in
  (scan_connection latest c self).2 = Ok (Fin dep)
  ∧ (∃ before,
       Forall (λ e, is_merge e = false) before
       ∧ trace self'
         = trace self ++ before ++ Merge L pt :: map (λ e, Merge e.1 e.2) offers)
  ∧ _stop_profiles self'
    = foldl (λ m e, merge_at e.1 e.2 m)
        (merge_at L pt (touched (arrival_stop c) (_stop_profiles self)))
        offers.
Proof.
  intros Hle Hbest Hspeed L dep _ pt changed offers self'.
  unfold self'. rewrite (scan_connection_finite latest c self a) by done.
  assert (propagation_edges self c a
          = if changed then edges_iter (_walk_network self) L else []) as Hedges.
  { unfold propagation_edges. rewrite bool_decide_false by done.
    by rewrite andb_true_r. }
  assert (map (λ e, (e.1, footpath_tuple (_walk_speed self) dep a e))
              (propagation_edges self c a) = offers) as Hoffers.
  { rewrite Hedges. unfold offers. by destruct changed. }
  cbn [fst snd]. split; [|split].
  - rewrite bool_decide_false by done. by rewrite andb_false_r.
  - exists ([Query (arrival_stop c) (arrival_time c + _transfer_margin self);
             TripRead (trip_id c)]
            ++ (if num_lt (Fin a) (trip_arrival self c)
                then [TripWrite (trip_id c) (transfer_arrival self c)] else [])).
    split.
    + apply Forall_app. split; [by repeat constructor|].
      by destruct (num_lt _ _); repeat constructor.
    + rewrite (foldl_merged_trace fst), after_merge_trace.
      rewrite <- Hoffers, map_map, <- !app_assoc. by cbn [app fst snd].
  - rewrite (foldl_merged_stop_profiles fst), <- Hoffers, foldl_fmap.
    cbn [fst snd]. f_equal.
    unfold after_merge, merged, after_reads.
    destruct (num_lt _ _); fields; apply merge_at_touched.
Qed.

(** C4: a connection whose best arrival is unreachable, which is when both
    the transfer query and the tracker value are, is read and skipped: the
    frontier of every location and the tracker value of every trip are what
    they were, nothing is merged, written or propagated. *)
Theorem unreachable_connection_changes_nothing latest c self :
  num_le (Fin (departure_time c)) latest = true →
  best_arrival self c = Inf →
  let self' := (scan_connection latest c self).1 in
  (transfer_arrival self c = Inf ∧ trip_arrival self c = Inf)
  ∧ (∀ s, profile_at self' s = profile_at self s)
  ∧ (∀ i, trip_value self' i = trip_value self i)
  ∧ trace self'
    = trace self
      ++ [Query (arrival_stop c) (arrival_time c + _transfer_margin self);
          TripRead (trip_id c)]
  ∧ (scan_connection latest c self).2 = Ok (Fin (departure_time c)).
Proof.
  intros Hle Hbest self'. unfold self'.
  rewrite scan_connection_unreachable by done. cbn [fst snd].
  apply py_min_unreachable in Hbest as [Htrip Htransfer].
  split; [done|]. split; [apply after_reads_profile_at|].
  split; [apply after_reads_trip_value|].
  split; [apply after_reads_trace|done].
Qed.

(** ** Loops *)

Lemma for_in_app {A L} (l1 l2 : list A) (body : L → A → M L) locals self :
  for_in (l1 ++ l2) body locals self
  = match for_in l1 body locals self with
    | (self', Ok locals') => for_in l2 body locals' self'
    | (self', Raised e) => (self', Raised e)
    end.
Proof.
  revert locals self. induction l1 as [|x l1 IH]; intros locals self; [done|].
  simpl. unfold bind. destruct (body locals x self) as [s1 [l'|e]]; [|done].
  apply IH.
Qed.

(** A relation between the instance before and after that every iteration
    establishes holds across the loop. *)
Lemma for_in_rel {A L} (R : relation ConnectionScanProfiler)
    (l : list A) (body : L → A → M L) :
  Reflexive R → Transitive R →
  (∀ locals x self, R self (body locals x self).1) →
  ∀ locals self, R self (for_in l body locals self).1.
Proof.
  intros Hrefl Htrans Hbody.
  induction l as [|x l IH]; intros locals self; [apply Hrefl|].
  simpl. unfold bind. specialize (Hbody locals x self).
  destruct (body locals x self) as [s1 [l'|e]]; [|done].
  etransitivity; [exact Hbody|apply IH].
Qed.

Lemma run_eq self :
  _run self
  = match for_in (_connections self) scan_connection Inf self with
    | (self', Ok _) => (self', Ok tt)
    | (self', Raised e) => (self', Raised e)
    end.
Proof. unfold _run. rewrite bind_attr. unfold bind. by destruct (for_in _ _ _ _) as [? [?|?]]. Qed.

Lemma run_state self :
  (_run self).1 = (for_in (_connections self) scan_connection Inf self).1.
Proof. rewrite run_eq. by destruct (for_in _ _ _ _) as [? [?|?]]. Qed.

(** ** Frame properties of the scan of one connection *)

Lemma scan_connection_inputs latest c self :
  same_inputs self (scan_connection latest c self).1.
Proof.
  destruct (num_le (Fin (departure_time c)) latest) eqn:Hle.
  - destruct (best_arrival self c) as [a|] eqn:Hbest.
    + rewrite (scan_connection_finite latest c self a) by done.
      eapply same_inputs_trans; [apply after_merge_inputs|].
      apply (foldl_merged_inputs fst).
    + rewrite scan_connection_unreachable by done. apply after_reads_inputs.
  - rewrite scan_connection_out_of_order by done. apply same_inputs_refl.
Qed.

Lemma scan_connection_trip_value latest c self i :
  trip_value (scan_connection latest c self).1 i
  = if num_le (Fin (departure_time c)) latest
       && num_lt (best_arrival self c) (trip_arrival self c)
       && bool_decide (i = trip_id c)
    then transfer_arrival self c
    else trip_value self i.
Proof.
  destruct (num_le (Fin (departure_time c)) latest) eqn:Hle; simpl andb.
  - destruct (best_arrival self c) as [a|] eqn:Hbest.
    + rewrite (scan_connection_finite latest c self a) by done. cbn [fst].
      unfold trip_value at 1. rewrite (foldl_merged_trips fst).
      apply after_merge_trip_value.
    + rewrite scan_connection_unreachable by done.
      apply after_reads_trip_value.
  - by rewrite scan_connection_out_of_order.
Qed.

Lemma scan_connection_trips_dom latest c self :
  dom (__trip_min_arrival_time self)
  ⊆ dom (__trip_min_arrival_time (scan_connection latest c self).1).
Proof.
  destruct (num_le (Fin (departure_time c)) latest) eqn:Hle.
  - destruct (best_arrival self c) as [a|] eqn:Hbest.
    + rewrite (scan_connection_finite latest c self a) by done. cbn [fst].
      rewrite (foldl_merged_trips fst). apply after_merge_trips_dom.
    + rewrite scan_connection_unreachable by done.
      apply after_reads_trips_dom.
  - by rewrite scan_connection_out_of_order.
Qed.

Lemma filter_trip_write_merges {E} (f : E → event) (l : list E) :
  (∀ e, is_trip_write (f e) = false) →
  List.filter is_trip_write (map f l) = [].
Proof.
  intros Hf. induction l as [|e l IH]; [done|]. simpl. by rewrite Hf.
Qed.

Lemma scan_connection_writes latest c self :
  ∃ evs,
    trace (scan_connection latest c self).1 = trace self ++ evs
    ∧ List.filter is_trip_write evs
      = if num_le (Fin (departure_time c)) latest
           && num_lt (best_arrival self c) (trip_arrival self c)
        then [TripWrite (trip_id c) (transfer_arrival self c)]
        else [].
Proof.
  destruct (num_le (Fin (departure_time c)) latest) eqn:Hle; simpl andb.
  - destruct (best_arrival self c) as [a|] eqn:Hbest.
    + rewrite (scan_connection_finite latest c self a) by done. cbn [fst].
      rewrite (foldl_merged_trace fst), after_merge_trace.
      rewrite <- !app_assoc. eexists. split; [done|].
      rewrite !List.filter_app.
      rewrite filter_trip_write_merges by done.
      by destruct (num_lt _ _).
    + rewrite scan_connection_unreachable by done. cbn [fst].
      rewrite after_reads_trace. eexists. split; [done|]. by simpl.
  - rewrite scan_connection_out_of_order by done.
    exists []. by rewrite app_nil_r.
Qed.

(** ** The order on Python numbers *)

Lemma num_le_refl a : num_le a a = true.
Proof. destruct a as [x|]; simpl; [|done]. by apply bool_decide_eq_true_2. Qed.

Lemma num_le_trans a b c :
  num_le a b = true → num_le b c = true → num_le a c = true.
Proof.
  destruct a as [x|], b as [y|], c as [z|]; simpl; try done.
  rewrite !bool_decide_eq_true. apply Qcle_trans.
Qed.

Lemma num_lt_le a b : num_lt a b = true → num_le a b = true.
Proof.
  destruct a as [x|], b as [y|]; simpl; try done.
  rewrite !bool_decide_eq_true. apply Qclt_le_weak.
Qed.

Lemma num_le_false_lt a b : num_le a b = false ↔ num_lt b a = true.
Proof.
  destruct a as [x|], b as [y|]; simpl; try done.
  rewrite bool_decide_eq_false, bool_decide_eq_true.
  split; [apply Qcnot_le_lt|apply Qclt_not_le].
Qed.

Lemma scan_connection_tracker_improved latest c self :
  tracker_improved self (scan_connection latest c self).1.
Proof.
  split; [|apply scan_connection_trips_dom].
  intros i. rewrite scan_connection_trip_value.
  destruct (_ && _ && _) eqn:Hw; [|apply num_le_refl].
  apply andb_prop in Hw as [Hw Hi]. apply andb_prop in Hw as [_ Hw].
  apply bool_decide_eq_true in Hi. subst i.
  apply py_min_improves in Hw as [_ Hlt]. by apply num_lt_le.
Qed.

(** C3: the tracker value of a trip only ever improves.  The scan of a
    connection [c] writes the entry of the trip of [c] iff the stored value
    is strictly greater than the best arrival computed for [c], at most
    once; the value written is the transfer arrival, which is then the best
    arrival and strictly smaller than the stored value; every other entry
    keeps its value; and across the step, and across the whole sweep, no
    entry is deleted and no value increases. *)
Theorem trip_tracker_only_improves latest c self :
  let stored := trip_value self (trip_id c) in
  let best := best_arrival self c in
  let written :=
    num_le (Fin (departure_time c)) latest && num_lt best stored in
  let self' := (scan_connection latest c self).1 in
  (∃ evs,
     trace self' = trace self ++ evs
     ∧ List.filter is_trip_write evs
       = if written then [TripWrite (trip_id c) (transfer_arrival self c)]
         else [])
  ∧ (written = true →
     transfer_arrival self c = best
     ∧ num_lt (transfer_arrival self c) stored = true
     ∧ trip_value self' (trip_id c) = transfer_arrival self c)
  ∧ (∀ i, written = false ∨ i ≠ trip_id c →
          trip_value self' i = trip_value self i)
  ∧ dom (__trip_min_arrival_time self) ⊆ dom (__trip_min_arrival_time self')
  ∧ (∀ i, num_le (trip_value (_run self).1 i) (trip_value self i) = true)
  ∧ dom (__trip_min_arrival_time self)
    ⊆ dom (__trip_min_arrival_time (_run self).1).
Proof.
  intros stored best written self'.
  split; [apply scan_connection_writes|].
  split.
  { intros Hw. unfold self'. rewrite scan_connection_trip_value.
    change (num_le _ _ && num_lt _ _) with written.
    rewrite Hw, bool_decide_true by done. simpl.
    apply andb_prop in Hw as [_ Hw].
    apply py_min_improves in Hw as [Hmin Hlt].
    split; [symmetry; exact Hmin|]. split; [exact Hlt|done]. }
  split.
  { intros i Hi. unfold self'. rewrite scan_connection_trip_value.
    change (num_le _ _ && num_lt _ _) with written.
    destruct Hi as [->|Hi]; [done|].
    rewrite bool_decide_false by done. by rewrite andb_false_r. }
  split; [apply scan_connection_trips_dom|].
  assert (tracker_improved self (_run self).1) as [Hval Hdom]; [|done].
  rewrite run_state. apply for_in_rel.
  - intros s. split; [intros i; apply num_le_refl|done].
  - intros s1 s2 s3 [H12 D12] [H23 D23]. split.
    + intros i. eapply num_le_trans; [apply H23|apply H12].
    + set_solver.
  - intros. apply scan_connection_tracker_improved.
Qed.

(** ** The order of the connections *)

Lemma scan_connection_ok latest c self v :
  (scan_connection latest c self).2 = Ok v → v = Fin (departure_time c).
Proof.
  rewrite scan_connection_eq.
  destruct (num_le _ _); [|done].
  destruct (best_arrival self c) as [a|]; [|by intros [= <-]].
  destruct (merge_changes _ _ _); [|by intros [= <-]].
  destruct (_scan_footpaths_to_departure_stop _ _ _ _) as [s' [[]|e]];
    [by intros [= <-]|done].
Qed.

Lemma scan_connection_in_order latest c self :
  num_le (Fin (departure_time c)) latest = true →
  _walk_speed self ≠ 0 →
  (scan_connection latest c self).2 = Ok (Fin (departure_time c)).
Proof.
  intros Hle Hspeed. destruct (best_arrival self c) as [a|] eqn:Hbest.
  - rewrite (scan_connection_finite latest c self a) by done. cbn [snd].
    rewrite bool_decide_false by done. by rewrite andb_false_r.
  - by rewrite scan_connection_unreachable.
Qed.

Lemma for_in_scan_last pre p latest self self' v :
  for_in (pre ++ [p]) scan_connection latest self = (self', Ok v) →
  v = Fin (departure_time p).
Proof.
  rewrite for_in_app.
  destruct (for_in pre scan_connection latest self) as [s1 [l1|e]]; [|done].
  simpl. unfold bind.
  destruct (scan_connection l1 p s1) as [s2 [l2|e]] eqn:E; [|done].
  intros [= _ <-]. apply (scan_connection_ok l1 p s1). by rewrite E.
Qed.

Lemma for_in_scan_outcome l latest self :
  _walk_speed self ≠ 0 →
  match (for_in l scan_connection latest self).2 with
  | Ok _ => ordered_from latest l = true
  | Raised e => e = AssertionError ∧ ordered_from latest l = false
  end.
Proof.
  revert latest self. induction l as [|c l IH]; intros latest self Hspeed;
    [done|].
  cbn [for_in ordered_from]. unfold bind.
  destruct (num_le (Fin (departure_time c)) latest) eqn:Hle; cbn [andb].
  - pose proof (scan_connection_in_order latest c self Hle Hspeed) as Hok.
    pose proof (scan_connection_inputs latest c self) as (_&_&_&_&_&_&_&Hs).
    destruct (scan_connection latest c self) as [s1 [l1|e]]; [|done].
    injection Hok as ->. simpl in Hs. apply IH. congruence.
  - by rewrite scan_connection_out_of_order.
Qed.

Lemma ordered_from_adjacent latest l :
  ordered_from latest l = true
  ↔ match l with
    | [] => True
    | c :: _ => num_le (Fin (departure_time c)) latest = true
    end
    ∧ ∀ pre p c post, l = pre ++ p :: c :: post →
        departure_time c <= departure_time p.
Proof.
  revert latest. induction l as [|x l IH]; intros latest.
  - split; [|done]. intros _. split; [done|].
    intros pre p c post H. by destruct pre.
  - simpl. rewrite andb_true_iff, IH. split.
    + intros [Hx [Hhead Hadj]]. split; [done|].
      intros pre p c post H. destruct pre as [|y pre]; simplify_eq/=.
      * by apply bool_decide_eq_true in Hhead.
      * by eapply Hadj.
    + intros [Hx Hadj]. split; [done|]. split.
      * destruct l as [|y l]; [done|]. simpl. apply bool_decide_eq_true.
        by apply (Hadj [] x y l).
      * intros pre p c post ->. by apply (Hadj (x :: pre) p c post).
Qed.

Lemma ordered_from_violation latest l :
  ordered_from latest l = false →
  match l with
  | [] => False
  | c :: _ => num_le (Fin (departure_time c)) latest = false
  end
  ∨ ∃ pre p c post,
      l = pre ++ p :: c :: post ∧ departure_time p < departure_time c.
Proof.
  revert latest. induction l as [|x l IH]; intros latest; [done|].
  cbn [ordered_from]. intros [Hx|Hl]%andb_false_iff; [by left|]. right.
  destruct (IH _ Hl) as [Hhead|(pre & p & c & post & -> & Hlt)].
  - destruct l as [|y l]; [done|].
    exists [], x, y, l. split; [done|].
    simpl in Hhead. by apply bool_decide_eq_false, Qcnot_le_lt in Hhead.
  - by exists (x :: pre), p, c, post.
Qed.

(** C5: when some connection leaves strictly later than the connection
    just before it, the sweep aborts there: what [_run] does is what the
    scan of the connections before the offending one does, no connection from
    it on is scanned, and [_run] ends with an exception, so that the
    instance never gives its profiles. *)
Theorem out_of_order_aborts self pre p c post :
  _connections self = pre ++ p :: c :: post →
  departure_time p < departure_time c →
  let before := for_in (pre ++ [p]) scan_connection Inf self in
  _run self
  = (before.1, Raised match before.2 with
                      | Ok _ => AssertionError
                      | Raised e => e
                      end)
  ∧ (_has_run self = false →
     (stop_profiles (_run self).1).2 = Raised AssertionError).
Proof.
  intros Hconns Hlt before.
  assert (_run self
          = (before.1, Raised match before.2 with
                              | Ok _ => AssertionError
                              | Raised e => e
                              end)) as Hrun.
  { rewrite run_eq, Hconns.
    replace (pre ++ p :: c :: post) with ((pre ++ [p]) ++ c :: post)
      by (by rewrite <- app_assoc).
    rewrite for_in_app. fold before.
    destruct before as [s1 [v|e]] eqn:Hbefore; [|done].
    apply for_in_scan_last in Hbefore as ->.
    simpl. unfold bind. rewrite scan_connection_out_of_order; [done|].
    simpl. by apply bool_decide_eq_false, Qclt_not_le. }
  split; [done|]. intros Hflag.
  assert (same_inputs self (_run self).1) as (Hhr&_).
  { rewrite run_state. apply for_in_rel.
    - intros s. apply same_inputs_refl.
    - intros s1 s2 s3. apply same_inputs_trans.
    - intros. apply scan_connection_inputs. }
  clear Hrun. unfold stop_profiles. rewrite bind_attr, Hhr, Hflag. done.
Qed.

(** C10: the order check is not strict and does not constrain the first
    connection.  [_run] ends by the assertion exactly when some connection
    leaves strictly later than the one just before it; a sequence in which
    every connection leaves no later than its predecessor, ties included
    and whatever the first departure time, runs to its end. *)
Theorem order_check_non_strict self :
  _walk_speed self ≠ 0 →
  ((_run self).2 = Raised AssertionError
   ↔ ∃ pre p c post,
       _connections self = pre ++ p :: c :: post
       ∧ departure_time p < departure_time c)
  ∧ ((_run self).2 = Ok tt
     ↔ ∀ pre p c post,
         _connections self = pre ++ p :: c :: post →
         departure_time c <= departure_time p).
Proof.
  intros Hspeed.
  pose proof (for_in_scan_outcome (_connections self) Inf self Hspeed) as Hout.
  pose proof (ordered_from_adjacent Inf (_connections self)) as Hadj.
  assert ((_run self).2
          = match (for_in (_connections self) scan_connection Inf self).2 with
            | Ok _ => Ok tt
            | Raised e => Raised e
            end) as ->.
  { rewrite run_eq. by destruct (for_in _ _ _ _) as [? [?|?]]. }
  assert (ordered_from Inf (_connections self) = true
          ↔ ∀ pre p c post, _connections self = pre ++ p :: c :: post →
              departure_time c <= departure_time p) as Hord.
  { rewrite Hadj. split; [by intros [_ ?]|]. intros H. split; [|done].
    by destruct (_connections self). }
  split.
  - split.
    + intros Hraised.
      destruct (for_in _ _ _ _).2 as [v|e]; [done|].
      destruct Hout as [_ Hfalse].
      apply ordered_from_violation in Hfalse as [Hhead|?]; [|done].
      by destruct (_connections self).
    + intros (pre & p & c & post & Heq & Hlt).
      destruct (for_in _ _ _ _).2 as [v|e].
      * pose proof (proj1 Hord Hout _ _ _ _ Heq) as Hle.
        by apply Qcle_not_lt in Hle.
      * by destruct Hout as [-> _].
  - rewrite <- Hord. destruct (for_in _ _ _ _).2 as [v|e].
    + done.
    + destruct Hout as [_ ->]. done.
Qed.

(** ** The window bounds *)

Lemma window_blind_ret {A} (a : A) : window_blind (ret a).
Proof. by intros ???. Qed.

Lemma window_blind_raise {A} e : window_blind (@raise A e).
Proof. by intros ???. Qed.

Lemma window_blind_bind {A B} (m : M A) (k : A → M B) :
  window_blind m → (∀ x, window_blind (k x)) → window_blind (bind m k).
Proof.
  intros Hm Hk a b self. unfold bind. rewrite Hm.
  destruct (m self) as [s1 [x|e]]; [apply Hk|done].
Qed.

Lemma window_blind_attr {A} (field : ConnectionScanProfiler → A) :
  (∀ a b self, field (set_window a b self) = field self) →
  window_blind (attr field).
Proof. intros Hf a b self. unfold attr. by rewrite Hf. Qed.

Lemma window_blind_for_in {A L} (l : list A) (body : L → A → M L) locals :
  (∀ locals x, window_blind (body locals x)) →
  window_blind (for_in l body locals).
Proof.
  intros Hbody. revert locals. induction l as [|x l IH]; intros locals.
  - apply window_blind_ret.
  - apply window_blind_bind; [apply Hbody|apply IH].
Qed.

Lemma window_blind_stop_profiles_getitem s :
  window_blind (stop_profiles_getitem s).
Proof.
  intros a b self. unfold stop_profiles_getitem. fields.
  by destruct (_stop_profiles self !! s).
Qed.

Lemma window_blind_trip_getitem i :
  window_blind (trip_min_arrival_time_getitem i).
Proof.
  intros a b self. unfold trip_min_arrival_time_getitem. fields.
  by destruct (__trip_min_arrival_time self !! i).
Qed.

Lemma window_blind_scan_footpath dep arr u e :
  window_blind (scan_footpath dep arr u e).
Proof.
  destruct e as [n d]. unfold scan_footpath.
  apply window_blind_bind; [by apply window_blind_attr|]. intros speed.
  apply window_blind_bind.
  { unfold py_div. case_bool_decide;
      [apply window_blind_raise|apply window_blind_ret]. }
  intros q. apply window_blind_bind;
    [apply window_blind_stop_profiles_getitem|].
  intros ref. apply window_blind_bind; [by intros ???|].
  intros _. apply window_blind_ret.
Qed.

Lemma window_blind_scan_footpaths L dep arr :
  window_blind (_scan_footpaths_to_departure_stop L dep arr).
Proof.
  apply window_blind_bind; [by apply window_blind_attr|]. intros g.
  apply window_blind_for_in. intros. apply window_blind_scan_footpath.
Qed.

Lemma window_blind_scan_connection latest c :
  window_blind (scan_connection latest c).
Proof.
  unfold scan_connection.
  apply window_blind_bind.
  { unfold py_assert. destruct (num_le _ _);
      [apply window_blind_ret|apply window_blind_raise]. }
  intros _. apply window_blind_bind;
    [apply window_blind_stop_profiles_getitem|]. intros arrival_profile.
  apply window_blind_bind;
    [apply window_blind_stop_profiles_getitem|]. intros dep_stop_profile.
  apply window_blind_bind; [by apply window_blind_attr|]. intros margin.
  apply window_blind_bind; [by intros ???|]. intros earliest.
  apply window_blind_bind; [apply window_blind_trip_getitem|]. intros tripv.
  destruct (py_min tripv earliest) as [a|] eqn:Hmin; [|apply window_blind_ret].
  apply window_blind_bind.
  { destruct (num_lt _ _); [by intros ???|apply window_blind_ret]. }
  intros _. apply window_blind_bind; [by intros ???|]. intros updated.
  apply window_blind_bind; [|intros; apply window_blind_ret].
  destruct updated; [apply window_blind_scan_footpaths|apply window_blind_ret].
Qed.

Lemma window_blind_run_sweep : window_blind _run.
Proof.
  unfold _run. apply window_blind_bind; [by apply window_blind_attr|].
  intros conns. apply window_blind_bind; [|intros; apply window_blind_ret].
  apply window_blind_for_in. intros. apply window_blind_scan_connection.
Qed.

Lemma window_blind_run : window_blind run.
Proof.
  intros a b self. unfold run. fields.
  destruct (_has_run self); [done|].
  rewrite window_blind_run_sweep. by destruct (_run self) as [s' [[]|e]].
Qed.

(** C7: the profiles of a sweep do not depend on [start_time] and
    [end_time].  Two instances built from the same connections, target,
    margin, walk network and speed, whatever their window bounds, end
    [run] in the same way, with the same profile at every location, after
    the same queries, tracker accesses and merges in the same order: no
    connection is dropped or skipped because of the window. *)
Theorem stop_profiles_independent_of_window
    transit_events target_stop transfer_margin walk_network walk_speed
    start_time1 end_time1 start_time2 end_time2 :
  let self1 := __init__ transit_events target_stop start_time1 end_time1
                 transfer_margin walk_network walk_speed in
  let self2 := __init__ transit_events target_stop start_time2 end_time2
                 transfer_margin walk_network walk_speed in
  ((_run self1).2 = (_run self2).2
   ∧ _stop_profiles (_run self1).1 = _stop_profiles (_run self2).1
   ∧ trace (_run self1).1 = trace (_run self2).1)
  ∧ (run self1).2 = (run self2).2
  ∧ _stop_profiles (run self1).1 = _stop_profiles (run self2).1
  ∧ (∀ s, profile_at (run self1).1 s = profile_at (run self2).1 s)
  ∧ (stop_profiles (run self1).1).2 = (stop_profiles (run self2).1).2
  ∧ trace (run self1).1 = trace (run self2).1.
Proof.
  intros self1 self2.
  assert (self2 = set_window start_time2 end_time2 self1) as -> by done.
  pose proof (window_blind_run start_time2 end_time2 self1) as Hrun.
  rewrite window_blind_run_sweep, !Hrun.
  cbn [fst snd]. split; [done|].
  split; [done|]. split; [done|]. split; [done|]. split; [|done].
  unfold stop_profiles. rewrite !bind_attr. fields.
  by destruct (_has_run (run self1).1).
Qed.

(** ** The life of an instance *)

Lemma run_sweep_inputs self : same_inputs self (_run self).1.
Proof.
  rewrite run_state. apply for_in_rel.
  - intros s. apply same_inputs_refl.
  - intros s1 s2 s3. apply same_inputs_trans.
  - intros. apply scan_connection_inputs.
Qed.

Lemma lifecycle_flag self completed :
  lifecycle self completed → _has_run self = completed.
Proof.
  induction 1 as [| self completed _ IH Hok | self completed e _ IH Hraised].
  - done.
  - unfold run in *. destruct (_has_run self); [done|].
    by destruct (_run self) as [s' [[]|e]].
  - unfold run in *. destruct (_has_run self) eqn:Hflag;
      [simpl; congruence|].
    pose proof (run_sweep_inputs self) as [Hhr _].
    destruct (_run self) as [s' [[]|e']]; [done|].
    simpl in *. congruence.
Qed.

(** C6: reading [stop_profiles] fails with the assertion as long as no
    sweep has run to completion on the instance, which covers a new
    instance and one whose [run] was aborted; once a sweep has completed,
    the read gives the dictionary of profiles and leaves the instance as it
    is. *)
Theorem stop_profiles_only_after_completion self completed :
  lifecycle self completed →
  stop_profiles self
  = (self, if completed then Ok (_stop_profiles self)
           else Raised AssertionError).
Proof.
  intros Hlife. apply lifecycle_flag in Hlife as <-.
  unfold stop_profiles. rewrite bind_attr.
  by destruct (_has_run self).
Qed.

(** ** The sentinel at the target *)

Lemma merged_profile_at s pt st s' :
  profile_at (merged s pt st) s'
  = if bool_decide (s' = s)
    then (update_pareto_optimal_tuples (profile_at st s) pt).1
    else profile_at st s'.
Proof.
  unfold merged, merge_at, profile_at. fields. case_bool_decide as Hs.
  - subst s'. by rewrite lookup_insert_eq.
  - by rewrite lookup_insert_ne.
Qed.

Lemma foldl_merged_identity {E} (s : E → stop) (f : E → ParetoTuple) edges st t :
  profile_at st t = IdentityNodeProfile →
  profile_at (foldl (λ st e, merged (s e) (f e) st) st edges) t
  = IdentityNodeProfile.
Proof.
  revert st. induction edges as [|e edges IH]; intros st Ht; [done|].
  simpl. apply IH. rewrite merged_profile_at.
  case_bool_decide as Hs; [|done]. subst t. by rewrite Ht.
Qed.

Lemma scan_connection_identity latest c self t :
  profile_at self t = IdentityNodeProfile →
  profile_at (scan_connection latest c self).1 t = IdentityNodeProfile.
Proof.
  intros Ht. destruct (num_le (Fin (departure_time c)) latest) eqn:Hle.
  - destruct (best_arrival self c) as [a|] eqn:Hbest.
    + rewrite (scan_connection_finite latest c self a) by done. cbn [fst].
      apply (foldl_merged_identity fst). rewrite after_merge_profile_at.
      case_bool_decide as Hs; [|done]. subst t. by rewrite Ht.
    + rewrite scan_connection_unreachable by done. cbn [fst].
      by rewrite after_reads_profile_at.
  - by rewrite scan_connection_out_of_order.
Qed.

Lemma sweeping_target self :
  sweeping self → profile_at self (_target self) = IdentityNodeProfile.
Proof.
  induction 1 as [|self latest c _ IH].
  - unfold profile_at, __init__. fields. by rewrite lookup_insert_eq.
  - destruct (scan_connection_inputs latest c self) as (_&->&_).
    by apply scan_connection_identity.
Qed.

Lemma scan_connection_finite_trace latest c self a :
  num_le (Fin (departure_time c)) latest = true →
  best_arrival self c = Fin a →
  trace (scan_connection latest c self).1
  = trace self
    ++ ([Query (arrival_stop c) (arrival_time c + _transfer_margin self);
         TripRead (trip_id c)]
        ++ (if num_lt (Fin a) (trip_arrival self c)
            then [TripWrite (trip_id c) (transfer_arrival self c)] else []))
    ++ Merge (departure_stop c)
         {| pt_departure_time := departure_time c; arrival_time_target := a |}
       :: map (λ e, Merge e.1 (footpath_tuple (_walk_speed self)
                                 (departure_time c) a e))
              (propagation_edges self c a).
Proof.
  intros Hle Hbest.
  rewrite (scan_connection_finite latest c self a) by done. cbn [fst].
  rewrite (foldl_merged_trace fst), after_merge_trace.
  rewrite <- !app_assoc. by cbn [app].
Qed.

Lemma py_min_not_better (stored : num) (x : Qc) :
  num_lt stored (Fin x) = false → py_min stored (Fin x) = Fin x.
Proof.
  unfold py_min. destruct stored as [t|]; simpl; [|done].
  intros Hnlt%bool_decide_eq_false. case_bool_decide as Hlt; [done|].
  f_equal. apply Qcle_antisym; by apply Qcnot_lt_le.
Qed.

(** C9: the transfer margin is charged at the target too.  For a
    connection [c] that arrives at the target, the sentinel installed there
    is queried at [arrival_time c + transfer_margin] and answers that time;
    when the tracker holds nothing better for the trip of [c], the tuple
    merged at the departure location of [c] is
    [(departure_time c, arrival_time c + transfer_margin)]: the dictionary
    of profiles that the step leaves is the one obtained by merging that
    tuple into the frontier of the departure location, followed by the
    footpath merges, and the tracker entry of the trip holds the charged
    arrival time. *)
Theorem margin_charged_at_target latest c self :
  sweeping self →
  num_le (Fin (departure_time c)) latest = true →
  arrival_stop c = _target self →
  num_lt (trip_value self (trip_id c))
         (Fin (arrival_time c + _transfer_margin self)) = false →
  let charged := arrival_time c + _transfer_margin self in
  let pt := {| pt_departure_time := departure_time c;
               arrival_time_target := charged |} in
  let self' := (scan_connection latest c self).1 in
  profile_at self (arrival_stop c) = IdentityNodeProfile
  ∧ transfer_arrival self c = Fin charged
  ∧ best_arrival self c = Fin charged
  ∧ (∃ before footpaths,
       Forall (λ e, is_merge e = false) before
       ∧ trace self'
         = trace self
           ++ Query (_target self) charged :: before
           ++ Merge (departure_stop c) pt
              :: map (λ e, Merge e.1 e.2) footpaths
       ∧ _stop_profiles self'
         = foldl (λ m e, merge_at e.1 e.2 m)
             (merge_at (departure_stop c) pt
                (touched (_target self) (_stop_profiles self)))
             footpaths)
  ∧ trip_value self' (trip_id c) = Fin charged
  ∧ (edges_iter (_walk_network self) (departure_stop c) = [] →
     profile_at self' (departure_stop c)
     = (update_pareto_optimal_tuples (profile_at self (departure_stop c)) pt).1).
Proof.
  intros Hsweep Hle Harr Hstored charged pt self'.
  pose proof (sweeping_target self Hsweep) as Htarget.
  rewrite <- Harr in Htarget.
  assert (transfer_arrival self c = Fin charged) as Htransfer.
  { unfold transfer_arrival. by rewrite Htarget. }
  assert (best_arrival self c = Fin charged) as Hbest.
  { unfold best_arrival. rewrite Htransfer. by apply py_min_not_better. }
  split; [done|]. split; [done|]. split; [done|].
  split; [|split].
  - exists (TripRead (trip_id c)
            :: (if num_lt (Fin charged) (trip_arrival self c)
                then [TripWrite (trip_id c) (transfer_arrival self c)]
                else [])),
      (map (λ e, (e.1, footpath_tuple (_walk_speed self) (departure_time c)
                         charged e))
           (propagation_edges self c charged)).
    split; [|split].
    + constructor; [done|].
      by destruct (num_lt (Fin charged) _); repeat constructor.
    + unfold self'.
      rewrite (scan_connection_finite_trace latest c self charged) by done.
      rewrite <- Harr, map_map, <- !app_assoc. by cbn [app fst snd].
    + unfold self'.
      rewrite (scan_connection_finite latest c self charged) by done.
      cbn [fst]. rewrite (foldl_merged_stop_profiles fst), foldl_fmap.
      cbn [fst snd]. f_equal. rewrite <- Harr.
      unfold after_merge, merged, after_reads.
      destruct (num_lt (Fin charged) _); fields; apply merge_at_touched.
  - unfold self'. rewrite scan_connection_trip_value, Hle, Hbest.
    rewrite bool_decide_true by done. rewrite andb_true_r. cbn [andb].
    destruct (num_lt (Fin charged) (trip_arrival self c)) eqn:Hw; [done|].
    unfold best_arrival, py_min in Hbest.
    by rewrite Htransfer, Hw in Hbest.
  - intros Hnone. unfold self'.
    rewrite (scan_connection_finite latest c self charged) by done.
    cbn [fst]. unfold propagation_edges. rewrite Hnone.
    destruct (_ && _); cbn [foldl];
      by rewrite after_merge_profile_at, bool_decide_true.
Qed.

(** ** Integer inputs *)














(** A property of the instance that every iteration over an element of
    the list keeps holds after the loop. *)
Lemma for_in_inv {A L} (P : ConnectionScanProfiler → Prop)
    (l : list A) (body : L → A → M L) :
  (∀ locals x self, x ∈ l → P self → P (body locals x self).1) →
  ∀ locals self, P self → P (for_in l body locals self).1.
Proof.
  induction l as [|x l IH]; intros Hbody locals self HP; [done|].
  simpl. unfold bind.
  pose proof (Hbody locals x self (list_elem_of_here _ _) HP) as Hstep.
  destruct (body locals x self) as [s1 [l'|e]]; [|done].
  apply IH; [|done]. intros ? y ? Hy. apply Hbody. by right.
Qed.



(** ** The examples *)


Lemma example_speed_nonzero : Qc_of_Z 2 ≠ 0.
Proof. rewrite <- Z2Qc_inj_0. by intros H%Z2Qc_inj. Qed.



Lemma example_sweep_in_range c e :
  c ∈ [hop_B_target; hop_A_B] →
  e ∈ edges_iter walk_AB (departure_stop c) →
  walk_in_range (departure_time c) e.2 (Qc_of_Z 2) = true.
Proof.
  intros Hc He. apply list_elem_of_In in Hc as [<-|[<-|[]]];
    apply list_elem_of_In in He as [<-|[]]; by vm_compute.
Qed.


(** The end-to-end scenario of the specification: without margin, B holds
    (10, 15) and A holds (5, 15). *)
Example end_to_end_scenario :
  (run (scenario 0)).2 = Ok tt
  ∧ frontier (run (scenario 0)).1 2 = Some [(10 # 1, 15 # 1)]%Q
  ∧ frontier (run (scenario 0)).1 1 = Some [(5 # 1, 15 # 1)]%Q
  ∧ frontier (run (scenario 0)).1 0 = None.
Proof. vm_compute. by repeat split. Qed.

(** With a margin of 2 the hop from A reaches B too late for the departure
    at 10: A stays unreachable. *)
Example margin_blocks_tight_connection :
  frontier (run (scenario 2)).1 2 = Some [(10 # 1, 17 # 1)]%Q
  ∧ frontier (run (scenario 2)).1 1 = Some [].
Proof. vm_compute. by repeat split. Qed.

(** With the walk edge between A and B, the tuple merged at B is offered
    to A half a time unit earlier. *)
Example footpath_scenario :
  frontier (run example_sweep).1 2 = Some [(10 # 1, 15 # 1)]%Q
  ∧ frontier (run example_sweep).1 1 = Some [(19 # 2, 15 # 1)]%Q.
Proof. vm_compute. by repeat split. Qed.

(** The first connection of the example, scanned on the new instance. *)
Lemma scan_connection_merges_best_arrival_witness :
  num_le (Fin (departure_time hop_B_target)) Inf = true
  ∧ ∃ rest,
      trace (scan_connection Inf hop_B_target example_sweep).1
      = trace example_sweep
        ++ Query (arrival_stop hop_B_target)
             (arrival_time hop_B_target + _transfer_margin example_sweep)
           :: TripRead (trip_id hop_B_target) :: rest.
Proof.
  split; [reflexivity|].
  destruct (scan_connection_merges_best_arrival Inf hop_B_target
              example_sweep eq_refl) as [_ [rest [Htrace _]]].
  exists rest. exact Htrace.
Defined.

Lemma footpaths_iff_changed_one_hop_witness :
  (num_le (Fin (departure_time hop_B_target)) Inf = true
   ∧ best_arrival example_sweep hop_B_target
     = Fin (arrival_time hop_B_target + _transfer_margin example_sweep)
   ∧ _walk_speed example_sweep ≠ 0
   ∧ ∀ e, e ∈ edges_iter (_walk_network example_sweep)
                (departure_stop hop_B_target) →
          walk_in_range (departure_time hop_B_target) e.2
            (_walk_speed example_sweep) = true)
  ∧ (scan_connection Inf hop_B_target example_sweep).2
    = Ok (Fin (departure_time hop_B_target)).
Proof.
  assert (∀ e, e ∈ edges_iter (_walk_network example_sweep)
                     (departure_stop hop_B_target) →
               walk_in_range (departure_time hop_B_target) e.2
                 (_walk_speed example_sweep) = true) as Hrange.
  { intros e He. apply (example_sweep_in_range hop_B_target e); [by left|done]. }
  split; [split; [reflexivity|split;
                    [reflexivity|split; [apply example_speed_nonzero|done]]]|].
  exact (proj1 (footpaths_iff_changed_one_hop Inf hop_B_target example_sweep
                  (arrival_time hop_B_target + _transfer_margin example_sweep)
                  eq_refl eq_refl example_speed_nonzero Hrange)).
Defined.

(** C2, as stated, fails: with the walking speed 3 the walk of distance 1 to
    the departure at 10 takes a third of a time unit, and the tuple offered
    to A leaves at the double 9.666666666666666, not at 29/3. *)
Lemma walking_time_is_rounded :
  (num_le (Fin (departure_time hop_B_target)) Inf = true
   ∧ best_arrival example_thirds hop_B_target
     = Fin (arrival_time hop_B_target + _transfer_margin example_thirds)
   ∧ _walk_speed example_thirds ≠ 0
   ∧ merge_changes example_thirds (departure_stop hop_B_target)
       {| pt_departure_time := departure_time hop_B_target;
          arrival_time_target :=
            arrival_time hop_B_target + _transfer_margin example_thirds |}
     = true)
  ∧ ¬ offers_exact_walking_time example_thirds
        (scan_connection Inf hop_B_target example_thirds).1 hop_B_target
        (arrival_time hop_B_target + _transfer_margin example_thirds).
Proof.
  split.
  { split; [reflexivity|]. split; [reflexivity|]. split; [|reflexivity].
    rewrite <- Z2Qc_inj_0. by intros H%Z2Qc_inj. }
  intros Hexact.
  specialize (Hexact (1%Z, Qc_of_Z 1) (list_elem_of_here _ _)).
  rewrite (scan_connection_finite_trace Inf hop_B_target example_thirds
             (arrival_time hop_B_target + _transfer_margin example_thirds))
    in Hexact by reflexivity.
  apply list_elem_of_In in Hexact. simpl in Hexact.
  destruct Hexact as [H|[H|[H|[H|[H|[]]]]]]; discriminate H.
Qed.

(** The hop from A to B scanned first: B is not reached yet. *)
Lemma unreachable_connection_changes_nothing_witness :
  (num_le (Fin (departure_time hop_A_B)) Inf = true
   ∧ best_arrival example_sweep hop_A_B = Inf)
  ∧ trace (scan_connection Inf hop_A_B example_sweep).1
    = trace example_sweep
      ++ [Query (arrival_stop hop_A_B)
            (arrival_time hop_A_B + _transfer_margin example_sweep);
          TripRead (trip_id hop_A_B)].
Proof.
  split; [split; reflexivity|].
  exact (proj1 (proj2 (proj2 (proj2
           (unreachable_connection_changes_nothing Inf hop_A_B example_sweep
              eq_refl eq_refl))))).
Defined.

Lemma out_of_order_aborts_witness :
  departure_time hop_B_target < departure_time (connection 1 0 12 14 2)
  ∧ ∃ e, (_run example_disorder).2 = Raised e.
Proof.
  assert (departure_time hop_B_target
          < departure_time (connection 1 0 12 14 2)) as Hlt
    by (by apply Z2Qc_inj_lt).
  split; [exact Hlt|].
  destruct (out_of_order_aborts example_disorder [] hop_B_target
              (connection 1 0 12 14 2) [] eq_refl Hlt) as [Hrun _].
  eexists. rewrite Hrun. reflexivity.
Defined.

Lemma stop_profiles_only_after_completion_witness :
  stop_profiles example_sweep = (example_sweep, Raised AssertionError)
  ∧ stop_profiles (run example_sweep).1
    = ((run example_sweep).1, Ok (_stop_profiles (run example_sweep).1)).
Proof.
  split.
  - apply (stop_profiles_only_after_completion example_sweep false).
    apply lifecycle_new.
  - apply (stop_profiles_only_after_completion (run example_sweep).1 true).
    apply (lifecycle_run_completed example_sweep false);
      [apply lifecycle_new|vm_compute; reflexivity].
Defined.


(** The hop to the target with a margin of 2: arriving at 15 counts as
    arriving at 17. *)
Lemma margin_charged_at_target_witness :
  (num_le (Fin (departure_time hop_B_target)) Inf = true
   ∧ arrival_stop hop_B_target = _target (scenario 2)
   ∧ num_lt (trip_value (scenario 2) (trip_id hop_B_target))
        (Fin (arrival_time hop_B_target + _transfer_margin (scenario 2)))
     = false)
  ∧ (best_arrival (scenario 2) hop_B_target
     = Fin (arrival_time hop_B_target + _transfer_margin (scenario 2))
     ∧ trip_value (scan_connection Inf hop_B_target (scenario 2)).1
         (trip_id hop_B_target)
       = Fin (arrival_time hop_B_target + _transfer_margin (scenario 2)))
  ∧ frontier (scan_connection Inf hop_B_target (scenario 2)).1 2
    = Some [(10 # 1, 17 # 1)]%Q.
Proof.
  split; [split; [reflexivity|split; reflexivity]|].
  split; [|vm_compute; reflexivity].
  pose proof (margin_charged_at_target Inf hop_B_target (scenario 2)
                (sweeping_init _ _ _ _ _ _ _) eq_refl eq_refl eq_refl)
    as (_ & _ & Hbest & _ & Htrip & _).
  split; [exact Hbest|exact Htrip].
Defined.

(** Two connections leaving at 10: the sweep runs to its end. *)
Lemma order_check_non_strict_witness :
  _walk_speed example_ties ≠ 0 ∧ (_run example_ties).2 = Ok tt.
Proof.
  split; [apply example_speed_nonzero|].
  apply (proj2 (order_check_non_strict example_ties example_speed_nonzero)).
  intros pre p c post Heq.
  destruct pre as [|x [|y [|z pre]]]; simplify_eq/=.
  apply Qcle_refl.
Defined.

(** * Further properties of the sweep *)

(** ** The tracker and the best arrival *)

Lemma py_min_keeps a b : num_lt (py_min a b) a = false → py_min a b = a.
Proof.
  unfold py_min. destruct (num_lt b a) eqn:E; [|done]. by rewrite E.
Qed.

Lemma py_min_le_l a b : num_le (py_min a b) a = true.
Proof.
  unfold py_min. destruct (num_lt b a) eqn:E;
    [by apply num_lt_le|apply num_le_refl].
Qed.

Lemma scan_connection_tracker_best latest c self :
  num_le (Fin (departure_time c)) latest = true →
  trip_value (scan_connection latest c self).1 (trip_id c)
  = best_arrival self c.
Proof.
  intros Hle. rewrite scan_connection_trip_value, Hle.
  rewrite bool_decide_true by done. rewrite andb_true_r. cbn [andb].
  destruct (num_lt (best_arrival self c) (trip_arrival self c)) eqn:Hw.
  - apply py_min_improves in Hw as [Hmin _]. symmetry. exact Hmin.
  - apply py_min_keeps in Hw. symmetry. exact Hw.
Qed.

(** X1: once a connection [c] has been scanned, the tracker entry of its
    trip is the best arrival computed for [c], finite or not: it was that
    already, or it has just been improved to it. *)
Theorem tracker_holds_best_arrival latest c self :
  num_le (Fin (departure_time c)) latest = true →
  trip_value (scan_connection latest c self).1 (trip_id c)
  = py_min (trip_value self (trip_id c))
      (get_earliest_arrival_time_at_target (profile_at self (arrival_stop c))
         (arrival_time c + _transfer_margin self)).
Proof. apply scan_connection_tracker_best. Qed.

Lemma tracker_holds_best_arrival_witness :
  num_le (Fin (departure_time hop_B_target)) Inf = true
  ∧ trip_value (scan_connection Inf hop_B_target example_sweep).1
      (trip_id hop_B_target)
    = Fin (arrival_time hop_B_target + _transfer_margin example_sweep).
Proof.
  split; [reflexivity|].
  exact (tracker_holds_best_arrival Inf hop_B_target example_sweep eq_refl).
Defined.

(** X2: staying aboard is free.  Whatever is scanned in between, a
    connection scanned after another connection of the same trip gets a best
    arrival no worse than the best arrival of that one, with no margin
    added. *)
Theorem same_trip_inherits_best_arrival latest c1 self between latest' c2 :
  num_le (Fin (departure_time c1)) latest = true →
  trip_id c2 = trip_id c1 →
  let after_c1 := (scan_connection latest c1 self).1 in
  let before_c2 := (for_in between scan_connection latest' after_c1).1 in
  num_le (best_arrival before_c2 c2) (best_arrival self c1) = true.
Proof.
  intros Hle Htrip after_c1 before_c2.
  eapply num_le_trans; [apply py_min_le_l|].
  unfold trip_arrival. rewrite Htrip.
  rewrite <- (scan_connection_tracker_best latest c1 self Hle).
  assert (tracker_improved after_c1 before_c2) as [Hval _]; [|apply Hval].
  apply for_in_rel.
  - intros s. split; [intros i; apply num_le_refl|done].
  - intros s1 s2 s3 [H12 D12] [H23 D23]. split.
    + intros i. eapply num_le_trans; [apply H23|apply H12].
    + set_solver.
  - intros. apply scan_connection_tracker_improved.
Qed.

Lemma same_trip_inherits_best_arrival_witness :
  (num_le (Fin (departure_time hop_B_target)) Inf = true
   ∧ trip_id hop_A_B_same_trip = trip_id hop_B_target)
  ∧ num_le
      (best_arrival
         (for_in [] scan_connection Inf
            (scan_connection Inf hop_B_target example_sweep).1).1
         hop_A_B_same_trip)
      (best_arrival example_sweep hop_B_target) = true.
Proof.
  split; [split; reflexivity|].
  exact (same_trip_inherits_best_arrival Inf hop_B_target example_sweep []
           Inf hop_A_B_same_trip eq_refl eq_refl).
Defined.

(** ** Every connection is read once, in order *)

Lemma filter_none_map {E} (p : event → bool) (f : E → event) (l : list E) :
  (∀ e, p (f e) = false) → List.filter p (map f l) = [].
Proof.
  intros Hf. induction l as [|e l IH]; [done|]. simpl. by rewrite Hf.
Qed.

Lemma scan_connection_reads latest c self :
  num_le (Fin (departure_time c)) latest = true →
  ∃ evs,
    trace (scan_connection latest c self).1 = trace self ++ evs
    ∧ List.filter is_read evs = reads_of (_transfer_margin self) c.
Proof.
  intros Hle. destruct (best_arrival self c) as [a|] eqn:Hbest.
  - rewrite (scan_connection_finite_trace latest c self a) by done.
    eexists. split; [done|].
    rewrite !List.filter_app. cbn [List.filter is_read].
    rewrite filter_none_map by done.
    by destruct (num_lt (Fin a) (trip_arrival self c)).
  - rewrite scan_connection_unreachable by done. cbn [fst].
    rewrite after_reads_trace. by eexists.
Qed.

Lemma for_in_scan_reads l latest self :
  ∃ scanned rest evs,
    l = scanned ++ rest
    ∧ trace (for_in l scan_connection latest self).1 = trace self ++ evs
    ∧ List.filter is_read evs
      = flat_map (reads_of (_transfer_margin self)) scanned
    ∧ (∀ v, (for_in l scan_connection latest self).2 = Ok v → rest = []).
Proof.
  revert latest self. induction l as [|c l IH]; intros latest self.
  - exists [], [], []. simpl. by rewrite app_nil_r.
  - cbn [for_in]. unfold bind.
    destruct (num_le (Fin (departure_time c)) latest) eqn:Hle.
    + destruct (scan_connection_reads latest c self Hle) as (evs1 & Ht1 & Hr1).
      destruct (scan_connection_inputs latest c self) as (_&_&_&_&_&Hm&_).
      destruct (scan_connection latest c self) as [s1 [v1|e]]; cbn [fst] in *.
      * destruct (IH v1 s1) as (scanned & rest & evs & -> & Ht & Hr & Hok).
        exists (c :: scanned), rest, (evs1 ++ evs).
        split; [done|]. split; [by rewrite Ht, Ht1, app_assoc|].
        split; [|done].
        rewrite List.filter_app, Hr1, Hr, Hm. done.
      * exists [c], l, evs1. split; [done|]. split; [done|].
        split; [|done]. cbn [flat_map]. by rewrite app_nil_r.
    + rewrite scan_connection_out_of_order by done.
      exists [], (c :: l), []. simpl. by rewrite app_nil_r.
Qed.

(** X3: the sweep reads the connections once each, in the order given,
    and skips none.  The queries and tracker reads that [_run] adds to the
    trace are those of a prefix of the connection list, one query at
    [arrival_time + transfer_margin] and one tracker read per connection;
    when [_run] returns, the prefix is the whole list. *)
Theorem connections_read_once_in_order self :
  ∃ scanned rest evs,
    _connections self = scanned ++ rest
    ∧ trace (_run self).1 = trace self ++ evs
    ∧ List.filter is_read evs
      = flat_map (λ c, [Query (arrival_stop c)
                          (arrival_time c + _transfer_margin self);
                        TripRead (trip_id c)]) scanned
    ∧ ((_run self).2 = Ok tt → rest = []).
Proof.
  destruct (for_in_scan_reads (_connections self) Inf self)
    as (scanned & rest & evs & Hl & Ht & Hr & Hok).
  exists scanned, rest, evs. rewrite run_state. split; [done|].
  split; [done|]. split; [done|].
  rewrite run_eq. destruct (for_in _ _ _ _) as [s' [v|e]]; [|done].
  intros _. by apply (Hok v).
Qed.

(** ** The keys of the two dictionaries *)

Lemma dom_touched s (m : gmap stop profile) :
  dom (touched s m) = {[s]} ∪ dom m.
Proof.
  unfold touched. destruct (m !! s) eqn:E; [|by rewrite dom_insert_L].
  assert (s ∈ dom m) by (apply elem_of_dom; eauto). set_solver.
Qed.

Lemma dom_touched_trip i (m : gmap trip num) :
  dom (touched_trip i m) = {[i]} ∪ dom m.
Proof.
  unfold touched_trip. destruct (m !! i) eqn:E; [|by rewrite dom_insert_L].
  assert (i ∈ dom m) by (apply elem_of_dom; eauto). set_solver.
Qed.

Lemma after_reads_doms self c :
  dom (_stop_profiles (after_reads self c))
  = {[departure_stop c; arrival_stop c]} ∪ dom (_stop_profiles self)
  ∧ dom (__trip_min_arrival_time (after_reads self c))
    = {[trip_id c]} ∪ dom (__trip_min_arrival_time self).
Proof.
  unfold after_reads. fields. rewrite !dom_touched, dom_touched_trip.
  split; [set_solver|done].
Qed.

Lemma after_merge_doms self c a :
  dom (_stop_profiles (after_merge self c a))
  = {[departure_stop c; arrival_stop c]} ∪ dom (_stop_profiles self)
  ∧ dom (__trip_min_arrival_time (after_merge self c a))
    = {[trip_id c]} ∪ dom (__trip_min_arrival_time self).
Proof.
  destruct (after_reads_doms self c) as [HP HT].
  unfold after_merge, merged, merge_at.
  destruct (num_lt (Fin a) (trip_arrival self c)); fields;
    rewrite !dom_insert_L, ?HP, ?HT; split; set_solver.
Qed.

Lemma foldl_merged_dom {E} (s : E → stop) (f : E → ParetoTuple) edges st :
  dom (_stop_profiles (foldl (λ st e, merged (s e) (f e) st) st edges))
  = dom (_stop_profiles st) ∪ list_to_set (s <$> edges).
Proof.
  revert st. induction edges as [|e edges IH]; intros st; simpl.
  - set_solver.
  - rewrite IH. unfold merged, merge_at. fields. rewrite dom_insert_L.
    set_solver.
Qed.

Lemma scan_connection_doms latest c self :
  num_le (Fin (departure_time c)) latest = true →
  dom (__trip_min_arrival_time (scan_connection latest c self).1)
  = {[trip_id c]} ∪ dom (__trip_min_arrival_time self)
  ∧ ∃ N : gset stop,
      dom (_stop_profiles (scan_connection latest c self).1)
      = {[departure_stop c; arrival_stop c]} ∪ dom (_stop_profiles self) ∪ N
      ∧ N ⊆ list_to_set
              (edges_iter (_walk_network self) (departure_stop c)).*1.
Proof.
  intros Hle. destruct (best_arrival self c) as [a|] eqn:Hbest.
  - rewrite (scan_connection_finite latest c self a) by done. cbn [fst].
    destruct (after_merge_doms self c a) as [HP HT].
    rewrite (foldl_merged_trips fst), (foldl_merged_dom fst), HP, HT.
    split; [done|]. eexists. split; [done|].
    unfold propagation_edges. destruct (_ && _); set_solver.
  - rewrite scan_connection_unreachable by done. cbn [fst].
    destruct (after_reads_doms self c) as [HP HT]. rewrite HP, HT.
    split; [done|]. exists ∅. set_solver.
Qed.

Lemma for_in_scan_doms l latest self :
  let final := (for_in l scan_connection latest self).1 in
  (dom (__trip_min_arrival_time self) ⊆ dom (__trip_min_arrival_time final)
   ∧ dom (__trip_min_arrival_time final)
     ⊆ dom (__trip_min_arrival_time self) ∪ trip_ids l)
  ∧ (dom (_stop_profiles self) ⊆ dom (_stop_profiles final)
     ∧ dom (_stop_profiles final)
       ⊆ dom (_stop_profiles self) ∪ departure_stops l ∪ arrival_stops l
         ∪ walk_neighbours (_walk_network self) l)
  ∧ (∀ v, (for_in l scan_connection latest self).2 = Ok v →
       trip_ids l ⊆ dom (__trip_min_arrival_time final)
       ∧ departure_stops l ∪ arrival_stops l ⊆ dom (_stop_profiles final)).
Proof.
  revert latest self. induction l as [|c l IH]; intros latest self.
  - simpl. unfold trip_ids, departure_stops, arrival_stops, walk_neighbours.
    simpl. set_solver.
  - cbn [for_in]. unfold bind.
    destruct (num_le (Fin (departure_time c)) latest) eqn:Hle.
    + destruct (scan_connection_doms latest c self Hle)
        as (HT & N & HP & HN).
      destruct (scan_connection_inputs latest c self) as (_&_&_&_&_&_&Hn&_).
      destruct (scan_connection latest c self) as [s1 [v1|e]]; cbn [fst] in *.
      * specialize (IH v1 s1). cbn zeta in IH. rewrite Hn, HT, HP in IH.
        destruct IH as ((IT1 & IT2) & (IP1 & IP2) & IOk).
        unfold trip_ids, departure_stops, arrival_stops, walk_neighbours in *.
        cbn [flat_map fmap list_fmap list_to_set]. cbn zeta.
        rewrite list_to_set_app_L.
        split; [set_solver|]. split; [set_solver|].
        intros v Hv. specialize (IOk v Hv). set_solver.
      * cbn zeta. cbn [fst snd]. rewrite HT, HP.
        unfold trip_ids, departure_stops, arrival_stops, walk_neighbours.
        cbn [flat_map fmap list_fmap list_to_set].
        rewrite list_to_set_app_L.
        split; [set_solver|]. split; [set_solver|]. done.
    + rewrite scan_connection_out_of_order by done. cbn zeta. cbn [fst snd].
      split; [set_solver|]. split; [set_solver|]. done.
Qed.

(** X4: the keys that the sweep leaves in its two dictionaries.  No key is
    ever removed; the tracker gains trip ids of the connections only, and
    the profiles gain only departure stops, arrival stops and walk
    neighbours of departure stops.  When [_run] returns, the tracker has
    gained the trip id of every connection, and every departure stop and
    every arrival stop has a profile, reachable or not. *)
Theorem keys_after_sweep self :
  let final := (_run self).1 in
  let connections := _connections self in
  (dom (__trip_min_arrival_time self) ⊆ dom (__trip_min_arrival_time final)
   ∧ dom (__trip_min_arrival_time final)
     ⊆ dom (__trip_min_arrival_time self) ∪ trip_ids connections)
  ∧ (dom (_stop_profiles self) ⊆ dom (_stop_profiles final)
     ∧ dom (_stop_profiles final)
       ⊆ dom (_stop_profiles self) ∪ departure_stops connections
         ∪ arrival_stops connections
         ∪ walk_neighbours (_walk_network self) connections)
  ∧ ((_run self).2 = Ok tt →
       dom (__trip_min_arrival_time final)
       = dom (__trip_min_arrival_time self) ∪ trip_ids connections
       ∧ departure_stops connections ∪ arrival_stops connections
         ⊆ dom (_stop_profiles final)).
Proof.
  intros final connections. unfold final. rewrite run_state.
  destruct (for_in_scan_doms connections Inf self) as (HT & HP & HOk).
  split; [done|]. split; [done|].
  rewrite run_eq. fold connections.
  destruct (for_in connections scan_connection Inf self) as [s' [v|e]];
    [|done].
  intros _. destruct (HOk v eq_refl) as [HT' HP'].
  cbn [fst] in *. split; [|done]. set_solver.
Qed.

(** ** The stops that the sweep leaves alone *)

Lemma foldl_merged_profile_other {E} (s : E → stop) (f : E → ParetoTuple)
    edges st t :
  (∀ e, e ∈ edges → s e ≠ t) →
  profile_at (foldl (λ st e, merged (s e) (f e) st) st edges) t
  = profile_at st t.
Proof.
  revert st. induction edges as [|e edges IH]; intros st Hne; [done|].
  simpl. rewrite IH by (intros e' He'; apply Hne; by right).
  rewrite merged_profile_at, bool_decide_false; [done|].
  intros ->. by apply (Hne e); [left|].
Qed.

Lemma scan_connection_profile_other latest c self t :
  departure_stop c ≠ t →
  (∀ e, e ∈ edges_iter (_walk_network self) (departure_stop c) → e.1 ≠ t) →
  profile_at (scan_connection latest c self).1 t = profile_at self t.
Proof.
  intros Hdep Hedges.
  destruct (num_le (Fin (departure_time c)) latest) eqn:Hle.
  - destruct (best_arrival self c) as [a|] eqn:Hbest.
    + rewrite (scan_connection_finite latest c self a) by done. cbn [fst].
      rewrite (foldl_merged_profile_other fst).
      * rewrite after_merge_profile_at, bool_decide_false; [done|].
        by intros ->.
      * intros e He. apply Hedges. unfold propagation_edges in He.
        destruct (_ && _); [done|by apply elem_of_nil in He].
    + rewrite scan_connection_unreachable by done.
      apply after_reads_profile_at.
  - by rewrite scan_connection_out_of_order.
Qed.

(** X5: the sweep merges into the frontier of departure stops and of their
    walk neighbours only.  A stop that is not the departure stop of any
    connection, nor joined by a walk edge to one, has after [_run],
    returned or aborted, the frontier it had before: being the arrival stop
    of connections changes nothing for it. *)
Theorem other_stops_keep_their_frontier self t :
  (∀ c, c ∈ _connections self →
        departure_stop c ≠ t
        ∧ ∀ e, e ∈ edges_iter (_walk_network self) (departure_stop c) →
               e.1 ≠ t) →
  profile_at (_run self).1 t = profile_at self t.
Proof.
  intros Hother. rewrite run_state.
  assert (_connections (for_in (_connections self) scan_connection Inf self).1
          = _connections self
          ∧ _walk_network (for_in (_connections self) scan_connection Inf self).1
            = _walk_network self
          ∧ profile_at (for_in (_connections self) scan_connection Inf self).1 t
            = profile_at self t) as (_&_&H); [|done].
  apply (for_in_inv (λ s, _connections s = _connections self
                          ∧ _walk_network s = _walk_network self
                          ∧ profile_at s t = profile_at self t)); [|done].
  intros latest c s Hc (Hconns & Hnet & Hprof).
  destruct (scan_connection_inputs latest c s) as (_&_&->&_&_&_&->&_).
  split; [done|]. split; [done|]. rewrite <- Hprof.
  destruct (Hother c Hc) as [Hdep Hedges].
  apply scan_connection_profile_other; [done|]. by rewrite Hnet.
Qed.

Lemma other_stops_keep_their_frontier_witness :
  profile_at (_run example_sweep).1 0%Z = profile_at example_sweep 0%Z.
Proof.
  apply (other_stops_keep_their_frontier example_sweep 0%Z).
  intros c Hc.
  apply list_elem_of_In in Hc as [<-|[<-|[]]];
    (split; [done|]);
    intros e He; apply list_elem_of_In in He as [<-|[]]; done.
Defined.

(** ** A walking speed of zero *)

(** X6: with a walking speed of zero the division fails only where a
    footpath is scanned, and only after the merge.  The scan of a connection
    with a finite best arrival [a] has by then made its reads, improved the
    tracker and merged [(departure_time, a)] at the departure stop, and
    has offered nothing to any neighbour; it raises [ZeroDivisionError]
    exactly when that merge changed the frontier and the departure stop
    has a walk edge, and passes on to the next connection otherwise. *)
Theorem zero_walk_speed_raises_after_merge latest c self a :
  _walk_speed self = 0 →
  num_le (Fin (departure_time c)) latest = true →
  best_arrival self c = Fin a →
  let pt := {| pt_departure_time := departure_time c;
               arrival_time_target := a |} in
  let r := scan_connection latest c self in
  trace r.1
  = trace self
    ++ [Query (arrival_stop c) (arrival_time c + _transfer_margin self);
        TripRead (trip_id c)]
    ++ (if num_lt (Fin a) (trip_value self (trip_id c))
        then [TripWrite (trip_id c) (Fin a)] else [])
    ++ [Merge (departure_stop c) pt]
  ∧ profile_at r.1 (departure_stop c)
    = (update_pareto_optimal_tuples (profile_at self (departure_stop c)) pt).1
  ∧ trip_value r.1 (trip_id c) = Fin a
  ∧ r.2
    = if (update_pareto_optimal_tuples
            (profile_at self (departure_stop c)) pt).2
      then match edges_iter (_walk_network self) (departure_stop c) with
           | [] => Ok (Fin (departure_time c))
           | _ :: _ => Raised ZeroDivisionError
           end
      else Ok (Fin (departure_time c)).
Proof.
  intros Hzero Hle Hbest pt r.
  pose proof (scan_connection_tracker_best latest c self Hle) as Htrack.
  assert (propagation_edges self c a = []) as Hnone.
  { unfold propagation_edges. rewrite bool_decide_true by done.
    by rewrite andb_false_r. }
  unfold r in *. rewrite Hbest in Htrack.
  rewrite (scan_connection_finite latest c self a), Hnone in Htrack by done.
  rewrite (scan_connection_finite latest c self a), Hnone by done.
  cbn [foldl fst snd] in *. split; [|split; [|split]].
  - rewrite after_merge_trace.
    change (trip_value self (trip_id c)) with (trip_arrival self c).
    destruct (num_lt (Fin a) (trip_arrival self c)) eqn:Hw; [|done].
    rewrite <- Hbest in Hw. apply py_min_improves in Hw as [Hmin _].
    unfold best_arrival in Hbest. by rewrite <- Hmin, Hbest.
  - by rewrite after_merge_profile_at, bool_decide_true.
  - done.
  - rewrite bool_decide_true by done. by rewrite andb_true_r.
Qed.

Lemma zero_walk_speed_raises_after_merge_witness :
  (scan_connection Inf hop_B_target example_zero_speed).2
  = Raised ZeroDivisionError.
Proof.
  exact (proj2 (proj2 (proj2
           (zero_walk_speed_raises_after_merge Inf hop_B_target
              example_zero_speed
              (arrival_time hop_B_target + _transfer_margin example_zero_speed)
              eq_refl eq_refl eq_refl)))).
Defined.

(** ** [_run] and the flag *)

(** X7: [_run] itself never sets the flag that guards the results, and
    changes none of the constructor's arguments.  After a direct call of
    [_run] on an instance that has not run, returned or not, reading
    [stop_profiles] still fails. *)
Theorem run_sweep_leaves_flag_and_inputs self :
  _has_run (_run self).1 = _has_run self
  ∧ _target (_run self).1 = _target self
  ∧ _connections (_run self).1 = _connections self
  ∧ _transfer_margin (_run self).1 = _transfer_margin self
  ∧ _walk_network (_run self).1 = _walk_network self
  ∧ _walk_speed (_run self).1 = _walk_speed self
  ∧ (_has_run self = false →
     stop_profiles (_run self).1 = ((_run self).1, Raised AssertionError)).
Proof.
  destruct (run_sweep_inputs self) as (Hhr&Ht&Hc&_&_&Hm&Hn&Hs).
  repeat (split; [done|]). intros Hflag.
  unfold stop_profiles. rewrite bind_attr, Hhr, Hflag. done.
Qed.

Lemma run_sweep_leaves_flag_and_inputs_witness :
  (_run example_sweep).2 = Ok tt
  ∧ stop_profiles (_run example_sweep).1
    = ((_run example_sweep).1, Raised AssertionError).
Proof.
  split; [vm_compute; reflexivity|].
  apply (run_sweep_leaves_flag_and_inputs example_sweep). reflexivity.
Defined.

(** ** The walking speed without footpaths *)

Lemma scan_footpaths_no_edges L dep arr st :
  edges_iter (_walk_network st) L = [] →
  _scan_footpaths_to_departure_stop L dep arr st = (st, Ok tt).
Proof.
  intros Hnone. unfold _scan_footpaths_to_departure_stop.
  by rewrite bind_attr, Hnone.
Qed.

Lemma scan_connection_no_edges latest c self :
  edges_iter (_walk_network self) (departure_stop c) = [] →
  scan_connection latest c self
  = if num_le (Fin (departure_time c)) latest then
      match best_arrival self c with
      | Inf => (after_reads self c, Ok (Fin (departure_time c)))
      | Fin a => (after_merge self c a, Ok (Fin (departure_time c)))
      end
    else (self, Raised AssertionError).
Proof.
  intros Hnone. rewrite scan_connection_eq.
  destruct (num_le _ _); [|done].
  destruct (best_arrival self c) as [a|]; [|done].
  destruct (merge_changes _ _ _); [|done].
  rewrite scan_footpaths_no_edges; [done|].
  destruct (after_merge_inputs self c a) as (_&_&_&_&_&_&->&_). done.
Qed.

Lemma after_merge_set_walk_speed v self c a :
  after_merge (set_walk_speed v self) c a
  = set_walk_speed v (after_merge self c a).
Proof.
  unfold after_merge, after_reads, merged, merge_at, trip_arrival,
    transfer_arrival, trip_value, profile_at.
  cbn [_has_run _target _connections _start_time _end_time _transfer_margin
       _walk_network _walk_speed __trip_min_arrival_time _stop_profiles trace
       set_trip_min_arrival_time set_stop_profiles log set_walk_speed].
  by destruct (num_lt _ _).
Qed.

Lemma scan_connection_set_walk_speed v latest c self :
  edges_iter (_walk_network self) (departure_stop c) = [] →
  scan_connection latest c (set_walk_speed v self)
  = (set_walk_speed v (scan_connection latest c self).1,
     (scan_connection latest c self).2).
Proof.
  intros Hnone. rewrite !scan_connection_no_edges by done.
  destruct (num_le _ _); [|done].
  change (best_arrival (set_walk_speed v self) c) with (best_arrival self c).
  destruct (best_arrival self c) as [a|]; [|done].
  by rewrite after_merge_set_walk_speed.
Qed.

Lemma for_in_scan_set_walk_speed v l latest self :
  (∀ c, c ∈ l → edges_iter (_walk_network self) (departure_stop c) = []) →
  for_in l scan_connection latest (set_walk_speed v self)
  = (set_walk_speed v (for_in l scan_connection latest self).1,
     (for_in l scan_connection latest self).2).
Proof.
  revert latest self. induction l as [|c l IH]; intros latest self Hnone;
    [done|].
  cbn [for_in]. unfold bind.
  rewrite scan_connection_set_walk_speed by (apply Hnone; by left).
  destruct (scan_connection_inputs latest c self) as (_&_&_&_&_&_&Hn&_).
  destruct (scan_connection latest c self) as [s1 [v1|e]]; [|done].
  cbn [fst snd] in *. apply IH. intros c' Hc'. rewrite Hn.
  apply Hnone. by right.
Qed.

(** X9: the walking speed matters through footpaths only.  When no
    departure stop of the connections has a walk edge, [_run] ends in the
    same way and leaves the same profiles, tracker and trace whatever the
    walking speed, zero included, and never raises [ZeroDivisionError]. *)
Theorem walk_speed_irrelevant_without_footpaths v self :
  (∀ c, c ∈ _connections self →
        edges_iter (_walk_network self) (departure_stop c) = []) →
  let r := _run self in
  let r' := _run (set_walk_speed v self) in
  r'.2 = r.2
  ∧ _stop_profiles r'.1 = _stop_profiles r.1
  ∧ __trip_min_arrival_time r'.1 = __trip_min_arrival_time r.1
  ∧ trace r'.1 = trace r.1
  ∧ r.2 ≠ Raised ZeroDivisionError.
Proof.
  intros Hnone r r'.
  assert (∀ w, _run (set_walk_speed w self)
               = (set_walk_speed w r.1, r.2)) as Hany.
  { intros w. unfold r. rewrite !run_eq.
    change (_connections (set_walk_speed w self)) with (_connections self).
    rewrite for_in_scan_set_walk_speed by done.
    by destruct (for_in _ _ _ _) as [s' [x|e]]. }
  unfold r'. rewrite Hany. cbn [fst snd].
  repeat (split; [done|]).
  pose proof (for_in_scan_outcome (_connections self) Inf
                (set_walk_speed 1 self)) as Hout.
  assert (_walk_speed (set_walk_speed 1 self) ≠ 0) as Hone by done.
  specialize (Hout Hone).
  pose proof (Hany 1) as Hrun. rewrite run_eq in Hrun.
  change (_connections (set_walk_speed 1 self)) with (_connections self)
    in Hrun.
  intros Hraised.
  destruct (for_in (_connections self) scan_connection Inf
              (set_walk_speed 1 self)) as [s' [x|e]];
    injection Hrun as _ Hr; rewrite Hraised in Hr; [done|].
  destruct Hout as [-> _]. done.
Qed.

Lemma walk_speed_irrelevant_without_footpaths_witness :
  (_run (set_walk_speed 0 (scenario 0))).2 = (_run (scenario 0)).2.
Proof.
  apply (walk_speed_irrelevant_without_footpaths 0 (scenario 0)).
  intros c Hc. reflexivity.
Defined.

(** ** How many merges a sweep makes *)

Lemma scan_connection_merge_count latest c self :
  ∃ evs,
    trace (scan_connection latest c self).1 = trace self ++ evs
    ∧ (length (List.filter is_merge evs)
       ≤ 1 + length (edges_iter (_walk_network self) (departure_stop c)))%nat.
Proof.
  destruct (num_le (Fin (departure_time c)) latest) eqn:Hle.
  - destruct (best_arrival self c) as [a|] eqn:Hbest.
    + rewrite (scan_connection_finite_trace latest c self a) by done.
      eexists. split; [done|].
      rewrite !List.filter_app. cbn [List.filter is_merge app].
      rewrite !length_app. cbn [length].
      assert (length (List.filter is_merge
                (if num_lt (Fin a) (trip_arrival self c)
                 then [TripWrite (trip_id c) (transfer_arrival self c)]
                 else [])) = 0%nat) as -> by (by destruct (num_lt _ _)).
      pose proof (List.filter_length_le is_merge
                    (map (λ e, Merge e.1 (footpath_tuple (_walk_speed self)
                                            (departure_time c) a e))
                         (propagation_edges self c a))) as Hf.
      rewrite length_fmap in Hf.
      assert (length (propagation_edges self c a)
              ≤ length (edges_iter (_walk_network self) (departure_stop c)))%nat.
      { unfold propagation_edges. destruct (_ && _); simpl; lia. }
      lia.
    + rewrite scan_connection_unreachable by done. cbn [fst].
      rewrite after_reads_trace. eexists. split; [done|]. simpl. lia.
  - rewrite scan_connection_out_of_order by done.
    exists []. rewrite app_nil_r. split; [done|]. simpl. lia.
Qed.

Lemma for_in_scan_merge_count l latest self :
  ∃ evs,
    trace (for_in l scan_connection latest self).1 = trace self ++ evs
    ∧ (length (List.filter is_merge evs)
       ≤ length l
         + length (flat_map (λ c, edges_iter (_walk_network self)
                                    (departure_stop c)) l))%nat.
Proof.
  revert latest self. induction l as [|c l IH]; intros latest self.
  - exists []. simpl. by rewrite app_nil_r.
  - cbn [for_in]. unfold bind.
    destruct (scan_connection_merge_count latest c self) as (evs1 & Ht1 & Hn1).
    destruct (scan_connection_inputs latest c self) as (_&_&_&_&_&_&Hn&_).
    destruct (scan_connection latest c self) as [s1 [v1|e]]; cbn [fst] in *.
    + destruct (IH v1 s1) as (evs & Ht & Hcount). rewrite Hn in Hcount.
      exists (evs1 ++ evs). split; [by rewrite Ht, Ht1, app_assoc|].
      rewrite List.filter_app, length_app. cbn [flat_map length].
      rewrite length_app. lia.
    + exists evs1. split; [done|]. cbn [flat_map length].
      rewrite length_app. lia.
Qed.

(** X10: the work of a sweep is bounded by its input.  Whatever the
    frontiers hold, [_run] calls [update_pareto_optimal_tuples] at most
    once per connection and once more per walk edge of the departure stop
    of each connection: propagation never goes beyond one hop. *)
Theorem merges_bounded_by_connections_and_edges self :
  ∃ evs,
    trace (_run self).1 = trace self ++ evs
    ∧ (length (List.filter is_merge evs)
       ≤ length (_connections self)
         + length (flat_map (λ c, edges_iter (_walk_network self)
                                    (departure_stop c))
                     (_connections self)))%nat.
Proof. rewrite run_state. apply for_in_scan_merge_count. Qed.
